(** * Minesweeper knowledge engine (src/minesweeper/minesweeper.py)

    A shallow embedding of the classes [Sentence], [MinesweeperAI] and
    [Minesweeper]: Python sets of cells are finite sets [gset Cell], the
    knowledge list is a [list Sentence] scanned by index (the list iterator
    of the [for] statement), the board is a list of rows of booleans, and
    the methods that can raise or loop return an [outcome]. *)

From stdpp Require Import base gmap sets list.

#[local] Set Warnings "-clear-no-such-hyp".

Local Open Scope Z_scope.

(** ** Values *)

(** A cell is the tuple [(i, j)]. *)
Definition Cell : Type := (Z * Z)%type.

(** What a call can end in: a normal return, a Python exception, or the
    model giving up on a loop that has not finished within its fuel. *)
Inductive exn : Type := ValueError | KeyError.

Inductive outcome (A : Type) : Type :=
| Ok (a : A)
| Raise (e : exn)
| OutOfFuel.

Arguments Ok {A} a.
Arguments Raise {A} e.
Arguments OutOfFuel {A}.

#[global] Instance outcome_ret : MRet outcome := fun A a => Ok a.

#[global] Instance outcome_bind : MBind outcome := fun A B k m =>
  match m with
  | Ok a => k a
  | Raise e => Raise e
  | OutOfFuel => OutOfFuel
  end.

(** ** class Sentence *)

Module Sentence.

(** [self.cells] is a set, [self.count] a Python integer. *)
Record t : Type := Make { cells : gset Cell; count : Z }.

(** [__eq__]: same cells and same count. *)
#[global] Instance eq_dec : EqDecision t.
Proof. solve_decision. Defined.

(** A method runs on the object and leaves it in a (possibly changed)
    state next to its return value. *)
Definition method (R : Type) : Type := t -> R * t.

(** [for cell in self.cells: acc.add(cell)] *)
Definition add_each (src acc : gset Cell) : gset Cell :=
  set_fold (fun cell acc => {[cell]} ∪ acc) acc src.

Definition known_mines : method (gset Cell) := fun self =>
  let mines := ∅ in
  let mines :=
    if decide (Z.of_nat (size (cells self)) = count self)
    then add_each (cells self) mines
    else mines in
  (mines, self).

Definition known_safes : method (gset Cell) := fun self =>
  let safe := ∅ in
  let safe :=
    if decide (count self = 0)
    then add_each (cells self) safe
    else safe in
  (safe, self).

Definition mark_mine (cell : Cell) : method Z := fun self =>
  if decide (cell ∈ cells self)
  then (1, {| cells := cells self ∖ {[cell]}; count := count self - 1 |})
  else (0, self).

Definition mark_safe (cell : Cell) : method Z := fun self =>
  if decide (cell ∈ cells self)
  then (1, {| cells := cells self ∖ {[cell]}; count := count self |})
  else (0, self).

End Sentence.

(** ** Shared helpers *)

(** [range(lo, hi)] *)
Definition range (lo hi : Z) : list Z := seqZ lo (hi - lo).

(** The cells visited by
    [for i in range(cell[0] - 1, cell[0] + 2):
       for j in range(cell[1] - 1, cell[1] + 2):], in visiting order. *)
Definition window (cell : Cell) : list Cell :=
  i ← range (cell.1 - 1) (cell.1 + 2);
  j ← range (cell.2 - 1) (cell.2 + 2);
  [(i, j)].

(** [0 <= i < height and 0 <= j < width] *)
Definition in_bounds (height width : Z) (c : Cell) : Prop :=
  (0 ≤ c.1 < height) ∧ (0 ≤ c.2 < width).

#[global] Instance in_bounds_dec height width c : Decision (in_bounds height width c).
Proof. unfold in_bounds. apply _. Defined.

(** [a and b] on two sets: the first operand when it is falsy (empty),
    the second otherwise. *)
Definition py_and (a b : gset Cell) : gset Cell :=
  if decide (a = ∅) then a else b.

(** [list.remove(x)]: drops the first item equal to [x], and raises
    [ValueError] when there is none. *)
Fixpoint list_remove (x : Sentence.t) (l : list Sentence.t)
  : outcome (list Sentence.t) :=
  match l with
  | [] => Raise ValueError
  | y :: l' =>
      if decide (y = x) then Ok l'
      else l'' ← list_remove x l'; Ok (y :: l'')
  end.

(** ** class Minesweeper (the board) *)

Module Minesweeper.

(** [self.board[i][j]] is [True] exactly for the cells of [self.mines]:
    [__init__] sets both together, so the board is kept as that set. *)
Record t : Type := Make { height : Z; width : Z; mines : gset Cell }.

Definition nearby_mines (cell : Cell) (self : t) : Z :=
  foldl (fun count c =>
           if decide (c = cell) then count
           else if decide (in_bounds (height self) (width self) c) then
             if decide (c ∈ mines self) then count + 1 else count
           else count)
        0 (window cell).

End Minesweeper.

(** ** class MinesweeperAI *)

Module MinesweeperAI.

Record t : Type := Make {
  height : Z;
  width : Z;
  moves_made : gset Cell;
  mines : gset Cell;
  safes : gset Cell;
  knowledge : list Sentence.t
}.

#[global] Instance eq_dec : EqDecision t.
Proof. solve_decision. Defined.

Definition set_moves_made (v : gset Cell) (self : t) : t :=
  Make (height self) (width self) v (mines self) (safes self) (knowledge self).
Definition set_mines (v : gset Cell) (self : t) : t :=
  Make (height self) (width self) (moves_made self) v (safes self) (knowledge self).
Definition set_safes (v : gset Cell) (self : t) : t :=
  Make (height self) (width self) (moves_made self) (mines self) v (knowledge self).
Definition set_knowledge (v : list Sentence.t) (self : t) : t :=
  Make (height self) (width self) (moves_made self) (mines self) (safes self) v.

(** [__init__] *)
Definition init (height width : Z) : t := Make height width ∅ ∅ ∅ [].

(** [for sentence in self.knowledge: sentence.f(cell)]: every sentence
    object of the list is updated in place. *)
Definition for_each_sentence (f : Sentence.method Z) (self : t) : t :=
  set_knowledge ((fun sentence => (f sentence).2) <$> knowledge self) self.

Definition mark_mine (cell : Cell) (self : t) : t :=
  let self := set_mines ({[cell]} ∪ mines self) self in
  for_each_sentence (Sentence.mark_mine cell) self.

Definition mark_safe (cell : Cell) (self : t) : t :=
  let self := set_safes ({[cell]} ∪ safes self) self in
  for_each_sentence (Sentence.mark_safe cell) self.

(** The nested loops of [add_knowledge] that fill
    [current_knowledge_cells]. *)
Definition current_knowledge_cells (cell : Cell) (self : t) : list Cell :=
  foldl (fun acc c =>
           if decide (c = cell) then acc
           else if decide (in_bounds (height self) (width self) c) then
             if decide (c ∉ py_and (moves_made self) (safes self))
             then acc ++ [c] else acc
           else acc)
        [] (window cell).

(** [for mine in known_mines.union(self.mines): self.mark_mine(mine)];
    the union is a new set, so the marks made on the way do not change
    what is iterated. *)
Definition mark_mines (todo : list Cell) (self : t) : t :=
  foldl (fun self mine => mark_mine mine self) self todo.

(** The body of the loop over [self.knowledge]. *)
Definition infer_body (sentence : Sentence.t) (self : t) : outcome t :=
  let known_safes := (Sentence.known_safes sentence).1 in
  let known_mines := (Sentence.known_mines sentence).1 in
  self ←
    (if decide (known_safes ≠ ∅) then
       let self := set_safes (safes self ∪ known_safes) self in
       k ← list_remove sentence (knowledge self);
       Ok (set_knowledge k self)
     else Ok self);
  if decide (known_mines ≠ ∅) then
    k ← list_remove sentence (knowledge self);
    let self := set_knowledge k self in
    Ok (mark_mines (elements (known_mines ∪ mines self)) self)
  else Ok self.

(** [for sentence in self.knowledge: ...]: the list iterator keeps an index
    [i] into the live list, and stops when the index is past its end. *)
Fixpoint infer_loop (fuel : nat) (i : nat) (self : t) : outcome t :=
  match knowledge self !! i with
  | None => Ok self
  | Some sentence =>
      match fuel with
      | O => OutOfFuel
      | S fuel =>
          self ← infer_body sentence self;
          infer_loop fuel (S i) self
      end
  end.

(** The [print] calls that end the method write to the console only. *)
Definition add_knowledge (cell : Cell) (count : Z) (self : t) : outcome t :=
  let self := set_moves_made ({[cell]} ∪ moves_made self) self in
  let self := if decide (cell ∉ safes self) then mark_safe cell self else self in
  let cs := current_knowledge_cells cell self in
  let self :=
    if decide (length cs ≠ 0%nat)
    then set_knowledge (knowledge self ++ [Sentence.Make (list_to_set cs) count]) self
    else self in
  infer_loop (length (knowledge self)) 0 self.

(** *** make_safe_move

    The method works on set objects: [self.safes.copy()] makes a new
    object, and [-=] and [pop] change the object they are called on. The
    sets of the instance are therefore put in a store of objects, the
    method runs on references into it, and the instance is read back from
    the store when the method returns. *)

Definition store : Type := list (gset Cell).

Definition moves_made_ref : nat := 0.
Definition mines_ref : nat := 1.
Definition safes_ref : nat := 2.

Definition to_store (self : t) : store :=
  [moves_made self; mines self; safes self].

Definition of_store (h : store) (self : t) : t :=
  Make (height self) (width self)
       (default ∅ (h !! moves_made_ref)) (default ∅ (h !! mines_ref))
       (default ∅ (h !! safes_ref)) (knowledge self).

(** [r.copy()] *)
Definition set_copy (r : nat) (h : store) : nat * store :=
  (length h, h ++ [default ∅ (h !! r)]).

(** [r1 -= r2] *)
Definition set_isub (r1 r2 : nat) (h : store) : store :=
  <[r1 := default ∅ (h !! r1) ∖ default ∅ (h !! r2)]> h.

(** [r.pop()]: removes and returns a member, [KeyError] on an empty set.
    Which member is not specified; [pick] selects it. *)
Definition set_pop (pick : nat) (r : nat) (h : store) : outcome (Cell * store) :=
  let s := default ∅ (h !! r) in
  match elements s !! (pick `mod` length (elements s))%nat with
  | None => Raise KeyError
  | Some c => Ok (c, <[r := s ∖ {[c]}]> h)
  end.

Definition make_safe_move (pick : nat) (self : t) : outcome (option Cell * t) :=
  let h := to_store self in
  let '(safe_moves, h) := set_copy safes_ref h in
  let h := set_isub safe_moves moves_made_ref h in
  if decide (size (default ∅ (h !! safe_moves)) = 0%nat) then
    Ok (None, of_store h self)
  else
    '(c, h) ← set_pop pick safe_moves h;
    Ok (Some c, of_store h self).

(** *** make_random_move

    The randomness source is a sequence of raw draws;
    [random.randrange(n)] takes the next one, reduced into [0, n), and
    raises [ValueError] when [n] is not positive. Every value
    [randrange] can return is obtained from some draw. *)

Definition randrange (rng : nat -> Z) (pos : nat) (n : Z) : outcome (Z * nat) :=
  if decide (n ≤ 0) then Raise ValueError else Ok (rng pos `mod` n, S pos).

Definition random_cell (rng : nat -> Z) (pos : nat) (self : t)
  : outcome (Cell * nat) :=
  '(i, pos) ← randrange rng pos (height self);
  '(j, pos) ← randrange rng pos (width self);
  Ok ((i, j), pos).

(** [while random_move in not_safe_moves: random_move = ...] *)
Fixpoint redraw (fuel : nat) (rng : nat -> Z) (pos : nat)
    (not_safe_moves : gset Cell) (random_move : Cell) (self : t)
  : outcome Cell :=
  if decide (random_move ∈ not_safe_moves) then
    match fuel with
    | O => OutOfFuel
    | S fuel =>
        '(random_move, pos) ← random_cell rng pos self;
        redraw fuel rng pos not_safe_moves random_move self
    end
  else Ok random_move.

Definition make_random_move (fuel : nat) (rng : nat -> Z) (self : t)
  : outcome (option Cell) :=
  if decide (size (moves_made self) = 56%nat) then Ok None
  else
    '(random_move, pos) ← random_cell rng 0 self;
    let not_safe_moves := moves_made self ∪ mines self in
    c ← redraw fuel rng pos not_safe_moves random_move self;
    Ok (Some c).

End MinesweeperAI.

Import MinesweeperAI.

(** ** class Minesweeper with its board

    The class as the source has it: [self.board] is a list of rows of
    booleans, indexed the way Python indexes lists, next to the set
    [self.mines]. [Minesweeper.t] above is what remains of it when the
    board is read as the set of the cells it marks. *)

Module Game.

Inductive error : Type := RangeError | IndexError.

(** A normal return, an exception ([RangeError] is the [ValueError] of
    [random.randrange] on an empty range), or a loop that has not ended
    within the fuel. *)
Inductive result (A : Type) : Type :=
| Done (a : A)
| Fail (e : error)
| Unfinished.

Arguments Done {A} a.
Arguments Fail {A} e.
Arguments Unfinished {A}.

#[global] Instance result_ret : MRet result := fun A a => Done a.

#[global] Instance result_bind : MBind result := fun A B k m =>
  match m with
  | Done a => k a
  | Fail e => Fail e
  | Unfinished => Unfinished
  end.

Record t : Type := Make {
  height : Z;
  width : Z;
  mines : gset Cell;
  board : list (list bool);
  mines_found : gset Cell
}.

Definition set_mines (v : gset Cell) (self : t) : t :=
  Make (height self) (width self) v (board self) (mines_found self).
Definition set_board (v : list (list bool)) (self : t) : t :=
  Make (height self) (width self) (mines self) v (mines_found self).
Definition set_mines_found (v : gset Cell) (self : t) : t :=
  Make (height self) (width self) (mines self) (board self) v.

(** The position [l[i]] names: a negative index counts from the end, and
    an index outside the list raises [IndexError]. *)
Definition position {A} (l : list A) (i : Z) : result nat :=
  let n := Z.of_nat (length l) in
  let k := if decide (i < 0) then i + n else i in
  if decide (0 ≤ k < n) then Done (Z.to_nat k) else Fail IndexError.

(** [l[i]] *)
Definition getitem {A} (l : list A) (i : Z) : result A :=
  k ← position l i;
  match l !! k with
  | Some x => Done x
  | None => Fail IndexError
  end.

(** [l[i] = v] *)
Definition setitem {A} (l : list A) (i : Z) (v : A) : result (list A) :=
  k ← position l i; Done (<[k := v]> l).

(** [random.randrange(n)] on the source of draws of [make_random_move]. *)
Definition draw (rng : nat → Z) (pos : nat) (n : Z) : result (Z * nat) :=
  match MinesweeperAI.randrange rng pos n with
  | Ok r => Done r
  | Raise _ => Fail RangeError
  | OutOfFuel => Unfinished
  end.

(** [row = []; for j in range(width): row.append(False)] *)
Definition blank_row (width : Z) : list bool :=
  foldl (fun row _ => row ++ [false]) [] (range 0 width).

(** [self.board = []; for i in range(height): ...; self.board.append(row)] *)
Definition blank_board (height width : Z) : list (list bool) :=
  foldl (fun board _ => board ++ [blank_row width]) [] (range 0 height).

(** [while len(self.mines) != mines: ...] *)
Fixpoint place (fuel : nat) (rng : nat → Z) (pos : nat)
    (height width mines_wanted : Z) (self : t) : result t :=
  if decide (Z.of_nat (size (mines self)) ≠ mines_wanted) then
    match fuel with
    | O => Unfinished
    | S fuel =>
        '(i, pos) ← draw rng pos height;
        '(j, pos) ← draw rng pos width;
        row ← getitem (board self) i;
        b ← getitem row j;
        if negb b then
          let self := set_mines ({[(i, j)]} ∪ mines self) self in
          row ← getitem (board self) i;
          row ← setitem row j true;
          rows ← setitem (board self) i row;
          place fuel rng pos height width mines_wanted (set_board rows self)
        else place fuel rng pos height width mines_wanted self
    end
  else Done self.

(** [__init__(height, width, mines)] *)
Definition init (fuel : nat) (rng : nat → Z) (height width mines_wanted : Z)
  : result t :=
  let self := Make height width ∅ [] ∅ in
  let self := set_board (blank_board (Game.height self) (Game.width self)) self in
  self ← place fuel rng 0 height width mines_wanted self;
  Done (set_mines_found ∅ self).

(** [is_mine(cell)] *)
Definition is_mine (cell : Cell) (self : t) : result bool :=
  row ← getitem (board self) cell.1;
  getitem row cell.2.

(** [nearby_mines(cell)] *)
Definition nearby_mines (cell : Cell) (self : t) : result Z :=
  foldl (fun acc c =>
           count ← acc;
           if decide (c = cell) then Done count
           else if decide (in_bounds (height self) (width self) c) then
             row ← getitem (board self) c.1;
             b ← getitem row c.2;
             if b : bool then Done (count + 1) else Done count
           else Done count)
        (Done 0) (window cell).

(** [won()] *)
Definition won (self : t) : bool :=
  bool_decide (mines_found self = mines self).

(** The board read as the set of its mines. *)
Definition to_board (self : t) : Minesweeper.t :=
  Minesweeper.Make (height self) (width self) (mines self).

(** The board has [height] rows of [width] cells, marks exactly the cells
    of [self.mines], and all of those are on it. *)
Definition well_formed (self : t) : Prop :=
  length (board self) = Z.to_nat (height self) ∧
  Forall (fun row => length row = Z.to_nat (width self)) (board self) ∧
  (∀ c, c ∈ mines self → in_bounds (height self) (width self) c) ∧
  (∀ c row, in_bounds (height self) (width self) c →
            board self !! Z.to_nat c.1 = Some row →
            row !! Z.to_nat c.2 = Some (bool_decide (c ∈ mines self))).

End Game.

(** ** Sequences of calls on one instance *)

Inductive call : Type :=
| AddKnowledge (cell : Cell) (count : Z)
| MarkMine (cell : Cell)
| MarkSafe (cell : Cell).

Definition exec (c : call) (self : MinesweeperAI.t) : outcome MinesweeperAI.t :=
  match c with
  | AddKnowledge cell count => add_knowledge cell count self
  | MarkMine cell => Ok (mark_mine cell self)
  | MarkSafe cell => Ok (mark_safe cell self)
  end.

Fixpoint run (cs : list call) (self : MinesweeperAI.t) : outcome MinesweeperAI.t :=
  match cs with
  | [] => Ok self
  | c :: cs => self ← exec c self; run cs self
  end.

(** ** Vocabulary of the properties *)

Section Vocabulary.

Implicit Types (self : MinesweeperAI.t) (s sentence : Sentence.t) (cell c : Cell).

(** What the [mark_mine] calls of a list of cells do to one sentence. *)
Definition strike (todo : list Cell) s : Sentence.t :=
  foldl (fun s c => (Sentence.mark_mine c s).2) s todo.

(** The three ways one pass of the loop body can go. *)
Inductive body_post sentence self : MinesweeperAI.t → Prop :=
| body_safes k :
    Sentence.count sentence = 0 → Sentence.cells sentence ≠ ∅ →
    list_remove sentence (knowledge self) = Ok k →
    body_post sentence self
      (set_knowledge k (set_safes (safes self ∪ Sentence.cells sentence) self))
| body_mines k :
    Z.of_nat (size (Sentence.cells sentence)) = Sentence.count sentence →
    Sentence.cells sentence ≠ ∅ →
    list_remove sentence (knowledge self) = Ok k →
    body_post sentence self
      (mark_mines (elements (Sentence.cells sentence ∪ mines self))
                  (set_knowledge k self))
| body_skip :
    (Sentence.known_safes sentence).1 = ∅ →
    (Sentence.known_mines sentence).1 = ∅ →
    body_post sentence self self.

(** The state once [add_knowledge] has recorded the move and marked the
    cell safe. *)
Definition marked cell self : MinesweeperAI.t :=
  let self := set_moves_made ({[cell]} ∪ moves_made self) self in
  if decide (cell ∉ safes self) then mark_safe cell self else self.

(** The state on which the loop of [add_knowledge] starts. *)
Definition before_loop cell (count : Z) self : MinesweeperAI.t :=
  let self := marked cell self in
  let cs := current_knowledge_cells cell self in
  if decide (length cs ≠ 0%nat)
  then set_knowledge (knowledge self ++ [Sentence.Make (list_to_set cs) count]) self
  else self.

(** [grows self self']: no field shrinks and the board size is kept. *)
Definition grows self self' : Prop :=
  height self' = height self ∧ width self' = width self ∧
  moves_made self ⊆ moves_made self' ∧
  mines self ⊆ mines self' ∧ safes self ⊆ safes self'.

(** The cells that pass the tests of the loop in [add_knowledge]. *)
Definition unresolved cell self c : Prop :=
  c ≠ cell ∧ in_bounds (height self) (width self) c ∧
  c ∉ py_and (moves_made self) (safes self).

#[global] Instance unresolved_dec cell self c : Decision (unresolved cell self c).
Proof. unfold unresolved. apply _. Defined.

(** The cells that [Minesweeper.nearby_mines] counts. *)
Definition counted cell (board : Minesweeper.t) c : Prop :=
  c ≠ cell ∧
  in_bounds (Minesweeper.height board) (Minesweeper.width board) c ∧
  c ∈ Minesweeper.mines board.

#[global] Instance counted_dec cell board c : Decision (counted cell board c).
Proof. unfold counted. apply _. Defined.

(** The sentence is true of the board: exactly [count] of its cells are
    mines. *)
Definition holds (board : Minesweeper.t) s : Prop :=
  Z.of_nat (size (Sentence.cells s ∩ Minesweeper.mines board)) = Sentence.count s.

(** Everything the instance believes is true of the board. *)
Definition consistent (board : Minesweeper.t) self : Prop :=
  height self = Minesweeper.height board ∧
  width self = Minesweeper.width board ∧
  mines self ⊆ Minesweeper.mines board ∧
  safes self ## Minesweeper.mines board ∧
  Forall (holds board) (knowledge self).

(** A call that tells the truth about the board: [add_knowledge] for a
    cell without a mine, with the number [nearby_mines] gives for it;
    [mark_mine] on a mine; [mark_safe] on a cell without one. *)
Definition truthful (board : Minesweeper.t) (op : call) : Prop :=
  match op with
  | AddKnowledge cell count =>
      (cell ∉ Minesweeper.mines board) ∧
      (count = Minesweeper.nearby_mines cell board)
  | MarkMine cell => cell ∈ Minesweeper.mines board
  | MarkSafe cell => cell ∉ Minesweeper.mines board
  end.

(** Every cell of the grid. *)
Definition all_cells self : gset Cell :=
  list_to_set (i ← range 0 (height self); j ← range 0 (width self); [(i, j)]).

(** The cells a random move may be: not chosen yet and not a known mine. *)
Definition candidates self : gset Cell :=
  all_cells self ∖ moves_made self ∖ mines self.

(** No sentence of the list yields a certain cell. *)
Definition settled self : Prop :=
  Forall (fun s => (Sentence.known_safes s).1 = ∅ ∧
                   (Sentence.known_mines s).1 = ∅) (knowledge self).

(** The count cannot be the number of mines among the cells. *)
Definition invalid s : Prop :=
  Sentence.count s < 0 ∨ Z.of_nat (size (Sentence.cells s)) < Sentence.count s.

(** Every move made is known to be safe. *)
Definition moves_safe self : Prop := moves_made self ⊆ safes self.

(** The cells of the first [rows] rows of a board [cols] wide, row by
    row, and the calls that observe each of them with count 0. *)
Definition grid_cells (rows cols : nat) : list Cell :=
  i ← seq 0 rows; j ← seq 0 cols; [(Z.of_nat i, Z.of_nat j)].

Definition observe_clear (cells : list Cell) : list call :=
  (fun cell => AddKnowledge cell 0) <$> cells.

(** [c] is one of the eight cells around [cell]. *)
Definition adjacent cell c : Prop :=
  c ≠ cell ∧ (cell.1 - 1 ≤ c.1 ≤ cell.1 + 1) ∧ (cell.2 - 1 ≤ c.2 ≤ cell.2 + 1).

(** [s'] is [s] with some cells taken out and the count lowered by at
    most the number of cells taken out. *)
Definition shrunk s s' : Prop :=
  Sentence.cells s' ⊆ Sentence.cells s ∧
  Sentence.count s' ≤ Sentence.count s ∧
  Sentence.count s - Sentence.count s'
    ≤ Z.of_nat (size (Sentence.cells s ∖ Sentence.cells s')).

(** Every sentence of the list comes from one of [origin]. *)
Definition descends (origin : list Sentence.t) (l : list Sentence.t) : Prop :=
  Forall (fun s' => ∃ s, s ∈ origin ∧ shrunk s s') l.

(** The sentence with the cells of [X] struck out as mines. *)
Definition without_mines (X : gset Cell) s : Sentence.t :=
  Sentence.Make (Sentence.cells s ∖ X)
                (Sentence.count s - Z.of_nat (size (Sentence.cells s ∩ X))).

(** The sentence [add_knowledge] builds for [cell] and [count]. *)
Definition new_sentence cell (count : Z) self : Sentence.t :=
  Sentence.Make (list_to_set (current_knowledge_cells cell (marked cell self)))
                count.

(** A 2x2 game with mines at [(0,1)] and [(1,0)], and draws that build
    it: 0, 1, 0, 1, 1, 0 (the cell [(0,1)] is drawn twice). *)
Definition small_game : Game.t :=
  Game.Make 2 2 {[ (0, 1); (1, 0) ]} [[false; true]; [true; false]] ∅.

Definition small_rng (k : nat) : Z :=
  match k with 1%nat | 3%nat | 4%nat => 1 | _ => 0 end.

(** The call hands [add_knowledge] what the game answers for the cell:
    [is_mine] returned [False] and [nearby_mines] returned the count. *)
Definition observed (g : Game.t) (op : call) : Prop :=
  match op with
  | AddKnowledge cell count =>
      Game.is_mine cell g = Game.Done false ∧
      Game.nearby_mines cell g = Game.Done count
  | MarkMine _ | MarkSafe _ => False
  end.

End Vocabulary.

(** ** Facts about sentences *)

Section SentenceFacts.

Implicit Types (s : Sentence.t) (cell : Cell).

Lemma add_each_union (src acc : gset Cell) :
  Sentence.add_each src acc = src ∪ acc.
Proof.
  unfold Sentence.add_each.
  apply (set_fold_ind_L (fun r X => r = X ∪ acc)).
  - set_solver.
  - intros x X r Hx ->. set_solver.
Qed.

Lemma known_mines_eq s :
  (Sentence.known_mines s).1 =
  if decide (Z.of_nat (size (Sentence.cells s)) = Sentence.count s)
  then Sentence.cells s else ∅.
Proof.
  unfold Sentence.known_mines; simpl.
  case_decide; [|done]. rewrite add_each_union. set_solver.
Qed.

Lemma known_safes_eq s :
  (Sentence.known_safes s).1 =
  if decide (Sentence.count s = 0) then Sentence.cells s else ∅.
Proof.
  unfold Sentence.known_safes; simpl.
  case_decide; [|done]. rewrite add_each_union. set_solver.
Qed.

(** A sentence never has both a known safe cell and a known mine. *)
Lemma known_safes_mines_excl s :
  (Sentence.known_safes s).1 ≠ ∅ → (Sentence.known_mines s).1 = ∅.
Proof.
  rewrite known_safes_eq, known_mines_eq.
  case_decide as H0; [|done]. intros Hne.
  case_decide as Hsz; [|done].
  rewrite H0 in Hsz. exfalso. apply Hne, leibniz_equiv, size_empty_iff. lia.
Qed.

Lemma mark_mine_cells_count cell s :
  Sentence.cells (Sentence.mark_mine cell s).2 = Sentence.cells s ∖ {[cell]} ∧
  Sentence.count (Sentence.mark_mine cell s).2
  = Sentence.count s - (if decide (cell ∈ Sentence.cells s) then 1 else 0).
Proof.
  unfold Sentence.mark_mine. case_decide; simpl; split; try done; try lia.
  set_solver.
Qed.

End SentenceFacts.

(** ** Facts about [list.remove] *)


Lemma list_remove_elem x l : x ∈ l → ∃ l', list_remove x l = Ok l'.
Proof.
  induction l as [|y l IH]; intros Hx; [by apply elem_of_nil in Hx|].
  simpl. case_decide as Hy; [eauto|].
  apply elem_of_cons in Hx as [->|Hx]; [done|].
  destruct (IH Hx) as [l' ->]. simpl. eauto.
Qed.

Lemma list_remove_length x l l' :
  list_remove x l = Ok l' → length l = S (length l').
Proof.
  revert l'. induction l as [|y l IH]; intros l'; simpl; [done|].
  case_decide; [by intros [= ->]|].
  destruct (list_remove x l) as [l''| |] eqn:E; simpl; try done.
  intros [= <-]. simpl. by rewrite (IH l'').
Qed.

Lemma list_remove_sublist x l l' : list_remove x l = Ok l' → l' `sublist_of` l.
Proof.
  revert l'. induction l as [|y l IH]; intros l'; simpl; [done|].
  case_decide; [intros [= ->]; by apply sublist_cons|].
  destruct (list_remove x l) as [l''| |] eqn:E; simpl; try done.
  intros [= <-]. apply sublist_skip. eauto.
Qed.

Lemma list_remove_Forall (P : Sentence.t → Prop) x l l' :
  Forall P l → list_remove x l = Ok l' → Forall P l'.
Proof.
  intros HP Hrm. apply Forall_forall. intros y Hy.
  apply (proj1 (Forall_forall P l) HP).
  eapply sublist_subseteq; [by eapply list_remove_sublist|done].
Qed.

(** Every item that differs from [x] survives [remove(x)]. *)
Lemma list_remove_other x y l l' :
  list_remove x l = Ok l' → y ∈ l → y ≠ x → y ∈ l'.
Proof.
  revert l'. induction l as [|z l IH]; intros l'; simpl; [done|].
  case_decide as Hz.
  - intros [= ->] Hy Hne. apply elem_of_cons in Hy as [->|Hy]; [congruence|done].
  - destruct (list_remove x l) as [l''| |] eqn:E; simpl; try done.
    intros [= <-] Hy Hne. apply elem_of_cons in Hy as [->|Hy].
    + apply elem_of_cons; auto.
    + apply elem_of_cons; right. eauto.
Qed.

(** ** The inference loop of [add_knowledge] *)

Section Loop.

Implicit Types (self : MinesweeperAI.t) (sentence : Sentence.t).

Lemma mark_mines_length todo self :
  length (knowledge (mark_mines todo self)) = length (knowledge self).
Proof.
  revert self. induction todo as [|c todo IH]; intros self; [done|].
  simpl. change (foldl _ ?a todo) with (mark_mines todo a).
  rewrite IH. simpl. by rewrite length_fmap.
Qed.

(** The body never raises on a sentence of the list. *)
Lemma infer_body_spec sentence self :
  sentence ∈ knowledge self →
  ∃ self', infer_body sentence self = Ok self' ∧ body_post sentence self self'.
Proof.
  intros Hin. destruct (list_remove_elem _ _ Hin) as [k Hk].
  unfold infer_body.
  destruct (decide ((Sentence.known_safes sentence).1 ≠ ∅)) as [Hs|Hs].
  - rewrite (known_safes_mines_excl _ Hs).
    change (knowledge (set_safes _ self)) with (knowledge self).
    rewrite Hk. cbn [mbind outcome_bind].
    destruct (decide (∅ ≠ ∅)) as [Hne|_]; [by destruct Hne|].
    eexists; split; [reflexivity|].
    rewrite known_safes_eq in Hs |- *.
    case_decide; [|done]. by apply body_safes.
  - apply dec_stable in Hs.
    change (mbind ?f (Ok self)) with (f self). cbv beta.
    destruct (decide ((Sentence.known_mines sentence).1 ≠ ∅)) as [Hm|Hm].
    + rewrite Hk. eexists; split; [reflexivity|].
      rewrite known_mines_eq in Hm |- *.
      case_decide; [|done].
      change (mines (set_knowledge k self)) with (mines self).
      by apply body_mines.
    + apply dec_stable in Hm. eexists; split; [done|]. by constructor.
Qed.

Lemma body_post_length sentence self self' :
  body_post sentence self self' →
  (length (knowledge self') ≤ length (knowledge self))%nat.
Proof.
  destruct 1 as [k _ _ Hk|k _ _ Hk|]; simpl; [| |lia].
  - apply list_remove_length in Hk. lia.
  - rewrite mark_mines_length. simpl. apply list_remove_length in Hk. lia.
Qed.

(** The loop returns within as many passes as the list is long, and
    carries any property that every pass of the body keeps. *)
Lemma infer_loop_inv (P : MinesweeperAI.t → Prop) :
  (∀ sentence self self',
      sentence ∈ knowledge self → P self →
      body_post sentence self self' → P self') →
  ∀ fuel i self,
    P self → (length (knowledge self) - i ≤ fuel)%nat →
    ∃ self', infer_loop fuel i self = Ok self' ∧ P self'.
Proof.
  intros Hstep fuel. induction fuel as [|fuel IH]; intros i self HP Hlen.
  - simpl. destruct (knowledge self !! i) eqn:E; [|eauto].
    apply lookup_lt_Some in E. lia.
  - simpl. destruct (knowledge self !! i) as [sentence|] eqn:E; [|eauto].
    pose proof (lookup_lt_Some _ _ _ E) as Hi.
    apply list_elem_of_lookup_2 in E.
    destruct (infer_body_spec _ _ E) as (self1 & -> & Hpost). simpl.
    pose proof (body_post_length _ _ _ Hpost).
    apply IH; [by eapply Hstep|lia].
Qed.

Lemma add_knowledge_unfold cell count self :
  add_knowledge cell count self =
  infer_loop (length (knowledge (before_loop cell count self))) 0
             (before_loop cell count self).
Proof. reflexivity. Qed.

Lemma add_knowledge_inv (P : MinesweeperAI.t → Prop) cell count self :
  (∀ sentence self self',
      sentence ∈ knowledge self → P self →
      body_post sentence self self' → P self') →
  P (before_loop cell count self) →
  ∃ self', add_knowledge cell count self = Ok self' ∧ P self'.
Proof.
  intros Hstep HP. rewrite add_knowledge_unfold.
  apply infer_loop_inv; [done..|lia].
Qed.

(** [add_knowledge] always returns. *)
Lemma add_knowledge_total cell count self :
  ∃ self', add_knowledge cell count self = Ok self'.
Proof.
  destruct (add_knowledge_inv (fun _ => True) cell count self) as (s' & ? & _);
    eauto.
Qed.

End Loop.

(** ** What the marking methods change *)

Section Marks.

Implicit Types (self : MinesweeperAI.t) (s : Sentence.t) (cell : Cell).

Lemma mark_mines_cons c todo self :
  mark_mines (c :: todo) self = mark_mines todo (mark_mine c self).
Proof. reflexivity. Qed.

Lemma mark_mines_fields todo self :
  height (mark_mines todo self) = height self ∧
  width (mark_mines todo self) = width self ∧
  moves_made (mark_mines todo self) = moves_made self ∧
  safes (mark_mines todo self) = safes self ∧
  mines (mark_mines todo self) = list_to_set todo ∪ mines self ∧
  knowledge (mark_mines todo self) = strike todo <$> knowledge self.
Proof.
  revert self. induction todo as [|c todo IH]; intros self.
  - simpl. repeat split; [set_solver|by rewrite list_fmap_id].
  - rewrite mark_mines_cons.
    destruct (IH (mark_mine c self)) as (-> & -> & -> & -> & -> & ->).
    simpl. repeat split; [set_solver|].
    rewrite <- list_fmap_compose. done.
Qed.

Lemma mark_mines_mines todo self :
  mines (mark_mines todo self) = list_to_set todo ∪ mines self.
Proof. apply mark_mines_fields. Qed.

Lemma mark_mines_safes todo self :
  safes (mark_mines todo self) = safes self.
Proof. apply mark_mines_fields. Qed.

Lemma mark_mines_moves_made todo self :
  moves_made (mark_mines todo self) = moves_made self.
Proof. apply mark_mines_fields. Qed.

Lemma mark_mines_knowledge todo self :
  knowledge (mark_mines todo self) = strike todo <$> knowledge self.
Proof. apply mark_mines_fields. Qed.

(** The order in which the union is read does not matter. *)
Lemma sentence_mark_mine_comm c1 c2 s :
  (Sentence.mark_mine c1 (Sentence.mark_mine c2 s).2).2 =
  (Sentence.mark_mine c2 (Sentence.mark_mine c1 s).2).2.
Proof.
  unfold Sentence.mark_mine.
  repeat (case_decide; simpl in * ); try done; try set_solver.
  all: try (f_equal; set_solver).
Qed.

Lemma mark_mine_comm c1 c2 self :
  mark_mine c1 (mark_mine c2 self) = mark_mine c2 (mark_mine c1 self).
Proof.
  unfold mark_mine, for_each_sentence, set_knowledge, set_mines; simpl.
  f_equal; [set_solver|].
  rewrite <- !list_fmap_compose. apply list_fmap_ext.
  intros _ s _. apply sentence_mark_mine_comm.
Qed.

Lemma mark_mines_perm todo1 todo2 self :
  todo1 ≡ₚ todo2 → mark_mines todo1 self = mark_mines todo2 self.
Proof.
  intros Hp. revert self.
  induction Hp as [|c l1 l2 _ IH|c1 c2 l|l1 l2 l3 _ IH1 _ IH2]; intros self.
  - done.
  - rewrite !mark_mines_cons. apply IH.
  - rewrite !mark_mines_cons. by rewrite mark_mine_comm.
  - by rewrite IH1.
Qed.

End Marks.

(** ** Growth of the certainty sets *)

Section Growth.

Implicit Types (self : MinesweeperAI.t).

#[local] Instance grows_preorder : PreOrder grows.
Proof.
  split.
  - intros self. by repeat split.
  - intros s1 s2 s3 (?&?&?&?&?) (?&?&?&?&?).
    repeat split; first [congruence|set_solver].
Qed.

Lemma mark_mine_grows cell self : grows self (mark_mine cell self).
Proof. repeat split; simpl; set_solver. Qed.

Lemma mark_safe_grows cell self : grows self (mark_safe cell self).
Proof. repeat split; simpl; set_solver. Qed.

Lemma body_post_grows sentence self self' :
  body_post sentence self self' → grows self self'.
Proof.
  destruct 1 as [k _ _ _|k _ _ _|]; [| |reflexivity].
  - repeat split; simpl; set_solver.
  - destruct (mark_mines_fields
                (elements (Sentence.cells sentence ∪ mines self))
                (set_knowledge k self)) as (Hh & Hw & Hmm & Hs & Hm & _).
    repeat split; [by rewrite Hh|by rewrite Hw|by rewrite Hmm| |by rewrite Hs].
    rewrite Hm. simpl. set_solver.
Qed.

Lemma before_loop_grows cell count self :
  grows self (before_loop cell count self).
Proof.
  unfold before_loop, marked.
  repeat (case_decide; simpl); repeat split; simpl; set_solver.
Qed.

Lemma add_knowledge_grows cell count self :
  ∃ self', add_knowledge cell count self = Ok self' ∧ grows self self'.
Proof.
  apply add_knowledge_inv; [|apply before_loop_grows].
  intros sentence s1 s2 _ H1 H2. etrans; [done|]. by eapply body_post_grows.
Qed.

Lemma exec_grows c self : ∃ self', exec c self = Ok self' ∧ grows self self'.
Proof.
  destruct c as [cell count|cell|cell]; simpl.
  - apply add_knowledge_grows.
  - eauto using mark_mine_grows.
  - eauto using mark_safe_grows.
Qed.

Lemma run_grows cs self : ∃ self', run cs self = Ok self' ∧ grows self self'.
Proof.
  revert self. induction cs as [|c cs IH]; intros self; simpl.
  - eexists; split; [done|reflexivity].
  - destruct (exec_grows c self) as (s1 & -> & H1). simpl.
    destruct (IH s1) as (s2 & -> & H2). eexists; split; [done|]. by etrans.
Qed.

End Growth.

(** ** The cells around a cell *)

Section Window.

Implicit Types (cell c : Cell) (self : MinesweeperAI.t).

Lemma range_NoDup lo hi : NoDup (range lo hi).
Proof. apply NoDup_seqZ. Qed.

Lemma window_NoDup cell : NoDup (window cell).
Proof.
  unfold window. apply NoDup_bind; [| |apply range_NoDup].
  - intros i1 i2 c _ _ H1 H2.
    apply list_elem_of_bind in H1 as (j1 & H1 & _).
    apply list_elem_of_bind in H2 as (j2 & H2 & _).
    apply list_elem_of_singleton in H1, H2. congruence.
  - intros i _. apply NoDup_bind; [| |apply range_NoDup].
    + intros j1 j2 c _ _ H1 H2.
      apply list_elem_of_singleton in H1, H2. congruence.
    + intros j _. apply NoDup_singleton.
Qed.

Lemma current_knowledge_cells_filter cell self :
  current_knowledge_cells cell self = filter (unresolved cell self) (window cell).
Proof.
  unfold current_knowledge_cells.
  set (f := fun (acc : list Cell) (c : Cell) => _).
  enough (∀ l acc, foldl f acc l = acc ++ filter (unresolved cell self) l)
    as H by apply (H _ []).
  subst f. induction l as [|c l IH]; intros acc; simpl.
  - by rewrite app_nil_r.
  - rewrite IH, filter_cons. unfold unresolved at 2.
    repeat case_decide; try tauto.
    by rewrite <- app_assoc.
Qed.

Lemma nearby_mines_filter cell board :
  Minesweeper.nearby_mines cell board =
  Z.of_nat (length (filter (counted cell board) (window cell))).
Proof.
  unfold Minesweeper.nearby_mines.
  transitivity (0 + Z.of_nat (length (filter (counted cell board) (window cell))));
    [|lia].
  generalize 0 as n.
  induction (window cell) as [|c l IH]; intros n; simpl.
  - lia.
  - rewrite IH, filter_cons. unfold counted at 2.
    repeat case_decide; simpl; try lia; tauto.
Qed.

End Window.

(** ** Observations that agree with a board *)

Section Truthful.

Variable board : Minesweeper.t.

Implicit Types (self : MinesweeperAI.t) (s : Sentence.t) (cell c : Cell).

Abbreviation M := (Minesweeper.mines board).

Lemma holds_mark_mine c s :
  c ∈ M → holds board s → holds board (Sentence.mark_mine c s).2.
Proof.
  unfold holds, Sentence.mark_mine. intros Hc Hs.
  case_decide as Hin; simpl; [|done].
  replace ((Sentence.cells s ∖ {[c]}) ∩ M)
    with ((Sentence.cells s ∩ M) ∖ {[c]}) by set_solver.
  rewrite size_difference by set_solver. rewrite size_singleton.
  assert (size (Sentence.cells s ∩ M) ≠ 0%nat).
  { apply size_non_empty_iff. set_solver. }
  lia.
Qed.

Lemma holds_mark_safe c s :
  c ∉ M → holds board s → holds board (Sentence.mark_safe c s).2.
Proof.
  unfold holds, Sentence.mark_safe. intros Hc Hs.
  case_decide as Hin; simpl; [|done].
  replace ((Sentence.cells s ∖ {[c]}) ∩ M) with (Sentence.cells s ∩ M)
    by set_solver.
  done.
Qed.

Lemma holds_strike todo s :
  Forall (fun c => c ∈ M) todo → holds board s → holds board (strike todo s).
Proof.
  intros Htodo. revert s.
  induction Htodo as [|c todo Hc _ IH]; intros s Hs; [done|].
  apply IH. by apply holds_mark_mine.
Qed.

Lemma holds_known_safes s :
  holds board s → Sentence.count s = 0 → Sentence.cells s ## M.
Proof.
  unfold holds. intros Hs H0. rewrite H0 in Hs.
  assert (Sentence.cells s ∩ M ≡ ∅) by (apply size_empty_iff; lia).
  set_solver.
Qed.

Lemma holds_known_mines s :
  holds board s → Z.of_nat (size (Sentence.cells s)) = Sentence.count s →
  Sentence.cells s ⊆ M.
Proof.
  unfold holds. intros Hs Hsz.
  assert (Sentence.cells s ∩ M ≡ Sentence.cells s) as Heq.
  { apply set_subseteq_size_equiv; [set_solver|lia]. }
  set_solver.
Qed.

Lemma consistent_mark_mine c self :
  c ∈ M → consistent board self → consistent board (mark_mine c self).
Proof.
  intros Hc (Hh & Hw & Hm & Hs & Hk).
  repeat split; simpl; [done|done|set_solver|done|].
  apply Forall_fmap. eapply Forall_impl; [exact Hk|].
  intros s. by apply holds_mark_mine.
Qed.

Lemma consistent_mark_safe c self :
  c ∉ M → consistent board self → consistent board (mark_safe c self).
Proof.
  intros Hc (Hh & Hw & Hm & Hs & Hk).
  repeat split; simpl; [done|done|done|set_solver|].
  apply Forall_fmap. eapply Forall_impl; [exact Hk|].
  intros s. by apply holds_mark_safe.
Qed.

Lemma consistent_mark_mines todo self :
  Forall (fun c => c ∈ M) todo → consistent board self →
  consistent board (mark_mines todo self).
Proof.
  intros Htodo. revert self.
  induction Htodo as [|c todo Hc _ IH]; intros self Hself; [done|].
  rewrite mark_mines_cons. apply IH. by apply consistent_mark_mine.
Qed.

Lemma consistent_body sentence self self' :
  sentence ∈ knowledge self → consistent board self →
  body_post sentence self self' → consistent board self'.
Proof.
  intros Hin (Hh & Hw & Hm & Hs & Hk) Hpost.
  assert (holds board sentence) as Hsent.
  { by eapply (proj1 (Forall_forall _ _) Hk). }
  destruct Hpost as [k H0 _ Hrm|k Hsz _ Hrm|]; [| |done].
  - pose proof (holds_known_safes _ Hsent H0).
    repeat split; simpl; [done|done|done|set_solver|].
    by eapply list_remove_Forall.
  - pose proof (holds_known_mines _ Hsent Hsz).
    apply consistent_mark_mines.
    + apply Forall_forall. intros c Hc. apply elem_of_elements in Hc.
      simpl in Hc. set_solver.
    + repeat split; simpl; [done|done|done|done|].
      by eapply list_remove_Forall.
Qed.

Lemma py_and_nonempty (a b : gset Cell) : a ≠ ∅ → py_and a b = b.
Proof. unfold py_and. by case_decide. Qed.

(** The sentence [add_knowledge] builds from a truthful board count is true. *)
Lemma holds_new_sentence cell self :
  consistent board self → moves_made self ≠ ∅ →
  holds board (Sentence.Make (list_to_set (current_knowledge_cells cell self))
                       (Minesweeper.nearby_mines cell board)).
Proof.
  intros (Hh & Hw & _ & Hs & _) Hne. unfold holds. simpl.
  rewrite current_knowledge_cells_filter, nearby_mines_filter.
  f_equal.
  rewrite <- (size_list_to_set (C := gset Cell))
    by apply NoDup_filter, window_NoDup.
  f_equal. apply leibniz_equiv. intros c.
  rewrite elem_of_intersection, !elem_of_list_to_set, !list_elem_of_filter.
  unfold unresolved, counted. rewrite py_and_nonempty, Hh, Hw by done.
  set_solver.
Qed.

Lemma consistent_before_loop cell self :
  cell ∉ M → consistent board self →
  consistent board (before_loop cell (Minesweeper.nearby_mines cell board) self).
Proof.
  intros Hc Hself. unfold before_loop.
  assert (consistent board (marked cell self)) as H1.
  { unfold marked. case_decide; [by apply consistent_mark_safe|done]. }
  assert (moves_made (marked cell self) ≠ ∅) as Hne.
  { unfold marked. case_decide; simpl; set_solver. }
  case_decide; [|done].
  destruct H1 as (Hh & Hw & Hm & Hs & Hk).
  repeat split; simpl; [done..|].
  apply Forall_app; split; [done|].
  apply Forall_singleton. apply holds_new_sentence; [|done].
  by repeat split.
Qed.

Lemma consistent_exec (op : call) self :
  truthful board op → consistent board self →
  ∃ self', exec op self = Ok self' ∧ consistent board self'.
Proof.
  destruct op as [cell count|cell|cell]; simpl; intros Hc Hself.
  - destruct Hc as [Hc ->].
    apply add_knowledge_inv; [|by apply consistent_before_loop].
    intros sentence s1 s2. apply consistent_body.
  - eauto using consistent_mark_mine.
  - eauto using consistent_mark_safe.
Qed.

Lemma consistent_run (ops : list call) self :
  Forall (truthful board) ops → consistent board self →
  ∃ self', run ops self = Ok self' ∧ consistent board self'.
Proof.
  intros Hops. revert self.
  induction Hops as [|op ops Hop _ IH]; intros self Hself; simpl; [eauto|].
  destruct (consistent_exec op self Hop Hself) as (s1 & -> & H1). simpl.
  by apply IH.
Qed.

Lemma consistent_init :
  consistent board (init (Minesweeper.height board) (Minesweeper.width board)).
Proof. repeat split; simpl; [set_solver..|constructor]. Qed.

Lemma consistent_disjoint self : consistent board self → mines self ## safes self.
Proof. intros (_ & _ & Hm & Hs & _). set_solver. Qed.

End Truthful.

(** ** Replayed and out-of-range observations *)

Section Replay.

Implicit Types (self : MinesweeperAI.t) (s : Sentence.t) (cell : Cell).

Lemma body_post_moves_made sentence self self' :
  body_post sentence self self' → moves_made self' = moves_made self.
Proof.
  destruct 1 as [k _ _ _|k _ _ _|]; [done| |done].
  by rewrite mark_mines_moves_made.
Qed.

Lemma body_post_settled sentence self self' :
  sentence ∈ knowledge self → settled self →
  body_post sentence self self' → self' = self.
Proof.
  intros Hin Hset Hpost.
  destruct (proj1 (Forall_forall _ _) Hset _ Hin) as [Hs Hm].
  rewrite known_safes_eq in Hs. rewrite known_mines_eq in Hm.
  destruct Hpost as [k H0 Hne _|k Hsz Hne _|]; [| |done].
  - by rewrite decide_True in Hs.
  - by rewrite decide_True in Hm.
Qed.

Lemma marked_already cell self :
  cell ∈ moves_made self → cell ∈ safes self → marked cell self = self.
Proof.
  intros Hm Hs. unfold marked. simpl.
  rewrite decide_False by (intros H; by apply H).
  destruct self as [h w mm mi sa kn]. unfold set_moves_made; simpl in *.
  f_equal. set_solver.
Qed.

Lemma marked_spec cell self :
  cell ∈ moves_made (marked cell self) ∧ cell ∈ safes (marked cell self).
Proof. unfold marked. case_decide as H; simpl in *; set_solver. Qed.

Lemma moves_safe_exec (op : call) self self' :
  moves_safe self → exec op self = Ok self' → moves_safe self'.
Proof.
  unfold moves_safe. destruct op as [cell count|cell|cell]; simpl.
  - intros Hself Hrun.
    destruct (add_knowledge_inv moves_safe cell count self) as (s' & Hs' & HP).
    + intros sentence s1 s2 _ H1 Hpost. unfold moves_safe.
      rewrite (body_post_moves_made _ _ _ Hpost).
      destruct (body_post_grows _ _ _ Hpost) as (_ & _ & _ & _ & ?). set_solver.
    + unfold moves_safe, before_loop, marked.
      repeat (case_decide; simpl in * ); set_solver.
    + rewrite Hrun in Hs'. by injection Hs' as <-.
  - intros Hself [= <-]. simpl. done.
  - intros Hself [= <-]. simpl. set_solver.
Qed.

Lemma moves_safe_run (ops : list call) self self' :
  moves_safe self → run ops self = Ok self' → moves_safe self'.
Proof.
  revert self. induction ops as [|op ops IH]; intros self Hself; simpl.
  - by intros [= <-].
  - destruct (exec op self) as [s1| |] eqn:E; simpl; try done.
    apply IH. by eapply moves_safe_exec.
Qed.

Lemma invalid_mark_mine cell s :
  invalid s → invalid (Sentence.mark_mine cell s).2.
Proof.
  unfold invalid, Sentence.mark_mine. intros Hs.
  case_decide as Hin; simpl; [|done].
  rewrite size_difference by set_solver. rewrite size_singleton.
  assert (size (Sentence.cells s) ≠ 0%nat).
  { apply size_non_empty_iff. set_solver. }
  lia.
Qed.

Lemma invalid_strike todo s : invalid s → invalid (strike todo s).
Proof.
  revert s. induction todo as [|c todo IH]; intros s Hs; [done|].
  apply IH. by apply invalid_mark_mine.
Qed.

(** The loop never drops a sentence with an impossible count. *)
Lemma body_post_invalid sentence self self' :
  Exists invalid (knowledge self) → body_post sentence self self' →
  Exists invalid (knowledge self').
Proof.
  intros Hex Hpost. apply Exists_exists in Hex as (y & Hy & Hbad).
  assert (∀ k,
             Z.of_nat (size (Sentence.cells sentence)) = Sentence.count sentence
             ∨ Sentence.count sentence = 0 →
             list_remove sentence (knowledge self) = Ok k → y ∈ k) as Hkeep.
  { intros k Hok Hrm. eapply list_remove_other; [done..|].
    intros ->. unfold invalid in Hbad. lia. }
  destruct Hpost as [k H0 _ Hrm|k Hsz _ Hrm|].
  - apply Exists_exists. exists y. split; [|done]. simpl. eauto.
  - rewrite mark_mines_knowledge. simpl.
    set (todo := elements (Sentence.cells sentence ∪ mines self)).
    apply Exists_exists. exists (strike todo y).
    split; [|by apply invalid_strike].
    apply list_elem_of_fmap. exists y. eauto.
  - apply Exists_exists. eauto.
Qed.

End Replay.

(** ** The random move on boards the constant does not fit *)

Section RandomMove.

(** On a board of one cell every draw is that cell. *)
Lemma redraw_one_cell fuel rng pos mm mi sa kn :
  redraw fuel rng pos {[ (0, 0) ]} (0, 0) (Make 1 1 mm mi sa kn) = OutOfFuel.
Proof.
  revert pos. induction fuel as [|fuel IH]; intros pos; simpl.
  - by rewrite decide_True by set_solver.
  - rewrite decide_True by set_solver.
    unfold random_cell, randrange; simpl.
    rewrite !Z.mod_1_r. apply IH.
Qed.

End RandomMove.

(** ** Two traces

    The first scenario of the specification: on a 3x3 board, observing
    [(0,0)] with count 0 makes its three neighbours safe. *)
Example trace_corner_clear :
  add_knowledge (0, 0) 0 (init 3 3) =
  Ok (Make 3 3 {[ (0, 0) ]} ∅ {[ (0, 0); (0, 1); (1, 0); (1, 1) ]} []).
Proof. vm_compute. reflexivity. Qed.

(** A count equal to the number of neighbours makes them all mines. *)
Example trace_corner_full :
  add_knowledge (0, 0) 3 (init 3 3) =
  Ok (Make 3 3 {[ (0, 0) ]} {[ (0, 1); (1, 0); (1, 1) ]} {[ (0, 0) ]} []).
Proof. vm_compute. reflexivity. Qed.

(** ** The properties of the specification *)

(** Membership in a set that is given in full is settled by evaluation. *)
Ltac by_eval := apply (bool_decide_unpack _); vm_compute; exact I.

(** C1 (as stated, refuted): on a fresh 8x8 instance,
    [add_knowledge((0,0), 3)] makes the three neighbours of the corner
    mines, and [add_knowledge((0,1), 0)] then marks one of them, [(0,1)],
    safe: the cell is in [self.mines] and in [self.safes]. *)
Lemma mines_safes_overlap :
  ∃ self,
    run [AddKnowledge (0, 0) 3; AddKnowledge (0, 1) 0] (init 8 8) = Ok self ∧
    (0, 1) ∈ mines self ∧ (0, 1) ∈ safes self.
Proof.
  eexists. split; [vm_compute; reflexivity|]. split; by_eval.
Qed.

(** C1 (amended): when every call tells the truth about one board
    ([add_knowledge] for a cell without a mine and with the count
    [nearby_mines] gives, [mark_mine] on a mine, [mark_safe] on a cell
    without one), every state reached from a fresh instance of the board's
    size has [self.mines] and [self.safes] disjoint. *)
Theorem mines_safes_disjoint_truthful (board : Minesweeper.t) (ops : list call) :
  Forall (truthful board) ops →
  ∃ self,
    run ops (init (Minesweeper.height board) (Minesweeper.width board)) = Ok self ∧
    mines self ## safes self.
Proof.
  intros Hops.
  destruct (consistent_run board ops _ Hops (consistent_init board))
    as (self & Hrun & Hself).
  exists self. split; [done|]. by eapply consistent_disjoint.
Qed.

(** The amended C1 on a 1x5 board whose only mine is [(0,0)]. *)
Lemma mines_safes_disjoint_truthful_witness :
  ∃ self,
    run [AddKnowledge (0, 1) 1; MarkSafe (0, 4);
         AddKnowledge (0, 2) 0; MarkMine (0, 0)] (init 1 5) = Ok self ∧
    mines self ## safes self.
Proof.
  apply (mines_safes_disjoint_truthful (Minesweeper.Make 1 5 {[ (0, 0) ]})).
  repeat constructor; simpl; try by_eval.
Defined.

(** C2 (the code stops short of the claim): on a fresh 1x5 instance,
    after [add_knowledge((0,1), 1)] and [add_knowledge((0,2), 0)] the
    knowledge still holds the sentence [{(0,3)} = 0], whose [known_safes()]
    is [{(0,3)}], and [(0,3)] is not in [self.safes]: the pass that removed
    the sentence before it stepped over it. *)
Theorem add_knowledge_stops_short :
  ∃ self s,
    run [AddKnowledge (0, 1) 1; AddKnowledge (0, 2) 0] (init 1 5) = Ok self ∧
    s ∈ knowledge self ∧
    (0, 3) ∈ (Sentence.known_safes s).1 ∧ (0, 3) ∉ safes self.
Proof.
  eexists _, (Sentence.Make {[ (0, 3) ]} 0).
  split; [vm_compute; reflexivity|].
  split; [apply list_elem_of_here|]. split; by_eval.
Qed.

(** C3 (the code has no subset inference): on a fresh 3x3 instance the
    four observations below leave the knowledge as exactly
    [{(0,2),(1,2)} = 1] and [{(0,2),(1,2),(2,2)} = 2]; the sentence
    [{(2,2)} = 1] is not derived and [(2,2)] is not in [self.mines]. *)
Theorem add_knowledge_no_subset_inference :
  ∃ self,
    run [AddKnowledge (0, 0) 0; AddKnowledge (1, 0) 0;
         AddKnowledge (0, 1) 1; AddKnowledge (1, 1) 2] (init 3 3) = Ok self ∧
    knowledge self = [Sentence.Make {[ (0, 2); (1, 2) ]} 1;
                      Sentence.Make {[ (0, 2); (1, 2); (2, 2) ]} 2] ∧
    (Sentence.Make {[ (2, 2) ]} 1 ∉ knowledge self) ∧
    (2, 2) ∉ mines self.
Proof.
  eexists. split; [vm_compute; reflexivity|].
  split; [vm_compute; reflexivity|]. split; by_eval.
Qed.

(** C4 (as stated, refuted): on a fresh 8x8 instance a second
    [add_knowledge((0,0), 1)] appends the sentence of the first call once
    more, so the state differs from the one before the call. *)
Lemma add_knowledge_replay_changes_state :
  ∃ self self',
    run [AddKnowledge (0, 0) 1] (init 8 8) = Ok self ∧
    (0, 0) ∈ moves_made self ∧
    add_knowledge (0, 0) 1 self = Ok self' ∧
    self' ≠ self.
Proof.
  eexists _, _. split; [vm_compute; reflexivity|].
  split; [by_eval|]. split; [vm_compute; reflexivity|].
  intros H. apply (f_equal (fun s => length (knowledge s))) in H.
  vm_compute in H. discriminate.
Qed.

(** C4 (amended): in a state reached from a fresh instance,
    [add_knowledge] for a cell that is already in [moves_made] returns
    without raising and leaves [moves_made] as it was; it leaves the whole
    state as it was when, besides, the cell has no neighbour on the board
    outside [self.safes] and no sentence of the knowledge yields a known
    safe cell or mine. *)
Theorem add_knowledge_replay (h w : Z) (ops : list call)
    (self : MinesweeperAI.t) (cell : Cell) (count : Z) :
  run ops (init h w) = Ok self →
  cell ∈ moves_made self →
  ∃ self',
    add_knowledge cell count self = Ok self' ∧
    moves_made self' = moves_made self ∧
    (current_knowledge_cells cell self = [] → settled self → self' = self).
Proof.
  intros Hrun Hcell.
  assert (cell ∈ safes self) as Hsafe.
  { eapply (moves_safe_run ops (init h w)); [|done..]. done. }
  apply (add_knowledge_inv
           (fun s => moves_made s = moves_made self ∧
                     (current_knowledge_cells cell self = [] →
                      settled self → s = self))).
  - intros sentence s1 s2 Hin [Hmm Hid] Hpost. split.
    + by rewrite (body_post_moves_made _ _ _ Hpost).
    + intros Hcs Hset. specialize (Hid Hcs Hset). subst s1.
      by eapply body_post_settled.
  - unfold before_loop. rewrite marked_already by done.
    case_decide as Hlen; simpl; [|done].
    split; [done|]. intros Hcs. by rewrite Hcs in Hlen.
Qed.

(** The amended C4 on a 1x1 board whose cell has been observed. *)
Lemma add_knowledge_replay_witness :
  ∃ self',
    add_knowledge (0, 0) 0 (Make 1 1 {[ (0, 0) ]} ∅ {[ (0, 0) ]} []) = Ok self' ∧
    moves_made self' = {[ (0, 0) ]} ∧
    (current_knowledge_cells (0, 0) (Make 1 1 {[ (0, 0) ]} ∅ {[ (0, 0) ]} []) = [] →
     settled (Make 1 1 {[ (0, 0) ]} ∅ {[ (0, 0) ]} []) →
     self' = Make 1 1 {[ (0, 0) ]} ∅ {[ (0, 0) ]} []).
Proof.
  apply (add_knowledge_replay 1 1 [AddKnowledge (0, 0) 0]).
  - vm_compute. reflexivity.
  - by_eval.
Defined.

(** C5 (as stated, refuted): [add_knowledge((0,0), -1)] on a fresh 8x8
    instance returns normally and has changed the state. *)
Lemma add_knowledge_accepts_negative_count :
  ∃ self',
    add_knowledge (0, 0) (-1) (init 8 8) = Ok self' ∧
    self' ≠ init 8 8 ∧
    (0, 0) ∈ moves_made self' ∧
    knowledge self' = [Sentence.Make {[ (0, 1); (1, 0); (1, 1) ]} (-1)].
Proof.
  eexists. split; [vm_compute; reflexivity|].
  split; [|split; [by_eval|vm_compute; reflexivity]].
  intros H. apply (f_equal (fun s => length (knowledge s))) in H.
  vm_compute in H. discriminate.
Qed.

(** C5 (amended): [add_knowledge] rejects no count. For every cell,
    count and state it returns normally with the cell in [moves_made] and
    in [safes]; when the count is negative or larger than the number of
    cells collected for the new sentence, and some cell was collected, the
    knowledge afterwards holds a sentence whose count is negative or
    larger than its number of cells. *)
Theorem add_knowledge_never_rejects (cell : Cell) (count : Z)
    (self : MinesweeperAI.t) :
  ∃ self',
    add_knowledge cell count self = Ok self' ∧
    cell ∈ moves_made self' ∧ cell ∈ safes self' ∧
    (let cs := current_knowledge_cells cell (marked cell self) in
     count < 0 ∨ Z.of_nat (length cs) < count →
     cs ≠ [] →
     Exists invalid (knowledge self')).
Proof.
  set (cs := current_knowledge_cells cell (marked cell self)).
  apply (add_knowledge_inv
           (fun s => cell ∈ moves_made s ∧ cell ∈ safes s ∧
                     (count < 0 ∨ Z.of_nat (length cs) < count → cs ≠ [] →
                      Exists invalid (knowledge s)))).
  - intros sentence s1 s2 _ (Hmm & Hs & Hbad) Hpost.
    destruct (body_post_grows _ _ _ Hpost) as (_ & _ & ? & _ & ?).
    split; [set_solver|]. split; [set_solver|].
    intros Hcount Hcs. eapply body_post_invalid; [|done]. by apply Hbad.
  - destruct (marked_spec cell self) as [Hmm Hs].
    unfold before_loop. fold cs.
    case_decide as Hlen; simpl.
    + split; [done|]. split; [done|]. intros Hcount _.
      apply Exists_app. right. apply Exists_cons_hd.
      unfold invalid; simpl.
      rewrite size_list_to_set; [done|].
      subst cs. rewrite current_knowledge_cells_filter.
      apply NoDup_filter, window_NoDup.
    + split; [done|]. split; [done|]. intros _ Hcs.
      destruct cs; [done|]. simpl in Hlen. lia.
Qed.

(** C6 (the code leaves a resolved cell in a sentence): on a fresh 1x4
    instance, after [add_knowledge((0,1), 1)] and
    [add_knowledge((0,3), 0)] the cell [(0,2)] is in [self.safes], put
    there by [self.safes.update], and still in the sentence
    [{(0,0),(0,2)} = 1] of the knowledge. *)
Theorem safe_cell_left_in_sentence :
  ∃ self s,
    run [AddKnowledge (0, 1) 1; AddKnowledge (0, 3) 0] (init 1 4) = Ok self ∧
    s ∈ knowledge self ∧
    (0, 2) ∈ Sentence.cells s ∧ (0, 2) ∈ safes self.
Proof.
  eexists _, (Sentence.Make {[ (0, 0); (0, 2) ]} 1).
  split; [vm_compute; reflexivity|].
  split; [by_eval|]. split; by_eval.
Qed.

(** C7: any sequence of calls returns, and every cell that is in
    [self.mines] or in [self.safes] before it is in the same set after it;
    a sequence of one [add_knowledge] call is the case of a single call. *)
Theorem certainty_sets_grow (ops : list call) (self : MinesweeperAI.t) :
  ∃ self',
    run ops self = Ok self' ∧
    mines self ⊆ mines self' ∧ safes self ⊆ safes self'.
Proof.
  destruct (run_grows ops self) as (self' & Hrun & _ & _ & _ & Hm & Hs).
  eauto.
Qed.

(** C8: [known_mines()] returns the whole cell set when the count equals
    the number of cells and the empty set otherwise; [known_safes()]
    returns the whole cell set when the count is 0 and the empty set
    otherwise; both leave the sentence as it was. *)
Theorem known_mines_known_safes_spec (s : Sentence.t) :
  Sentence.known_mines s =
    (if decide (Sentence.count s = Z.of_nat (size (Sentence.cells s)))
     then Sentence.cells s else ∅, s) ∧
  Sentence.known_safes s =
    (if decide (Sentence.count s = 0) then Sentence.cells s else ∅, s).
Proof.
  split.
  - rewrite (surjective_pairing (Sentence.known_mines s)), known_mines_eq.
    f_equal. repeat case_decide; done || lia.
  - rewrite (surjective_pairing (Sentence.known_safes s)), known_safes_eq.
    done.
Qed.

(** C9 (the code tests a constant, not the candidate set). On an 8x8
    instance with the 56 cells of rows 0 to 6 observed, each with count 0,
    the eight cells of row 7 are neither in [moves_made] nor in [mines],
    yet [make_random_move] returns [None], whatever the randomness
    source. On a 1x1 instance whose only cell has been observed no cell is
    left to choose, yet the call does not return [None]: it draws again
    for ever. *)
Theorem make_random_move_wrong_constant :
  (∃ self,
      run (observe_clear (grid_cells 7 8)) (init 8 8) = Ok self ∧
      candidates self = list_to_set ((fun j => (7, Z.of_nat j)) <$> seq 0 8) ∧
      ∀ fuel rng, make_random_move fuel rng self = Ok None) ∧
  (∃ self,
      run [AddKnowledge (0, 0) 0] (init 1 1) = Ok self ∧
      candidates self = ∅ ∧
      ∀ fuel rng, make_random_move fuel rng self = OutOfFuel).
Proof.
  split.
  - exists (Make 8 8 (list_to_set (grid_cells 7 8)) ∅
                   (list_to_set (grid_cells 8 8)) []).
    split; [vm_compute; reflexivity|].
    split; [vm_compute; reflexivity|].
    intros fuel rng. unfold make_random_move.
    case_decide as Hsize; [done|].
    exfalso. apply Hsize. vm_compute. reflexivity.
  - exists (Make 1 1 {[ (0, 0) ]} ∅ {[ (0, 0) ]} []).
    split; [vm_compute; reflexivity|]. split; [vm_compute; reflexivity|].
    intros fuel rng. unfold make_random_move.
    rewrite decide_False by (vm_compute; discriminate).
    unfold random_cell, randrange; simpl. rewrite !Z.mod_1_r.
    replace ({[ (0, 0) ]} ∪ ∅ : gset Cell) with ({[ (0, 0) ]} : gset Cell)
      by set_solver.
    by rewrite redraw_one_cell.
Qed.

(** C10: [make_safe_move] returns normally and leaves [moves_made],
    [mines], [safes] and [knowledge] as they were, whichever member [pop]
    picks: the set it changes is the copy. A cell it returns is in
    [self.safes] and not in [self.moves_made], and it returns [None]
    exactly when no such cell exists. *)
Theorem make_safe_move_pure (pick : nat) (self : MinesweeperAI.t) :
  ∃ r,
    make_safe_move pick self = Ok (r, self) ∧
    (∀ c, r = Some c → c ∈ safes self ∧ c ∉ moves_made self) ∧
    (r = None ↔ safes self ∖ moves_made self = ∅).
Proof.
  destruct self as [h w mm mi sa kn].
  unfold make_safe_move, to_store, set_copy, set_isub, set_pop, of_store.
  cbn [length app lookup list_lookup default safes_ref moves_made_ref mines_ref
       moves_made mines safes knowledge height width
       insert list_insert fst snd].
  simpl.
  case_decide as Hsz.
  - exists None. split; [done|]. split; [done|].
    split; [intros _|done]. by apply leibniz_equiv, size_empty_iff.
  - destruct (elements (sa ∖ mm) !! _) as [c|] eqn:E.
    + exists (Some c). simpl. split; [done|].
      apply list_elem_of_lookup_2, elem_of_elements in E.
      split; [intros ? [= <-]; set_solver|].
      split; [done|]. intros Hemp. rewrite Hemp in Hsz. done.
    + exfalso. apply lookup_ge_None in E.
      assert (length (elements (sa ∖ mm)) ≠ 0%nat) as Hlen by done.
      pose proof (Nat.mod_upper_bound pick _ Hlen). lia.
Qed.

(** ** Further properties of the sentences *)

(** X1: marking keeps a true sentence true. If exactly [count] cells of the
    sentence are mines of the board, that is still so after
    [mark_mine(cell)] for a cell that is a mine and after
    [mark_safe(cell)] for a cell that is not. *)
Theorem sentence_marks_keep_truth (board : Minesweeper.t) (s : Sentence.t)
    (cell : Cell) :
  holds board s →
  (cell ∈ Minesweeper.mines board → holds board (Sentence.mark_mine cell s).2) ∧
  (cell ∉ Minesweeper.mines board → holds board (Sentence.mark_safe cell s).2).
Proof.
  intros Hs. split; intros Hc.
  - by apply holds_mark_mine.
  - by apply holds_mark_safe.
Qed.

(** X1 on the sentence [{(0,0),(0,1)} = 1] of a board whose only mine is
    [(0,0)]. *)
Lemma sentence_marks_keep_truth_witness :
  (((0, 0) : Cell) ∈ Minesweeper.mines (Minesweeper.Make 1 2 {[ (0, 0) ]}) →
   holds (Minesweeper.Make 1 2 {[ (0, 0) ]})
         (Sentence.mark_mine (0, 0) (Sentence.Make {[ (0, 0); (0, 1) ]} 1)).2) ∧
  (((0, 0) : Cell) ∉ Minesweeper.mines (Minesweeper.Make 1 2 {[ (0, 0) ]}) →
   holds (Minesweeper.Make 1 2 {[ (0, 0) ]})
         (Sentence.mark_safe (0, 0) (Sentence.Make {[ (0, 0); (0, 1) ]} 1)).2).
Proof.
  apply (sentence_marks_keep_truth (Minesweeper.Make 1 2 {[ (0, 0) ]})).
  vm_compute. reflexivity.
Defined.

(** X2: what a true sentence reports is true. Every cell of
    [known_mines()] is a mine of the board and no cell of [known_safes()]
    is. *)
Theorem known_cells_sound (board : Minesweeper.t) (s : Sentence.t) :
  holds board s →
  (Sentence.known_mines s).1 ⊆ Minesweeper.mines board ∧
  (Sentence.known_safes s).1 ## Minesweeper.mines board.
Proof.
  intros Hs. rewrite known_mines_eq, known_safes_eq. split.
  - case_decide; [by apply holds_known_mines|set_solver].
  - case_decide; [by apply holds_known_safes|set_solver].
Qed.

(** X2 on the sentence [{(0,0),(0,1)} = 2] of a board with both mines. *)
Lemma known_cells_sound_witness :
  (Sentence.known_mines (Sentence.Make {[ (0, 0); (0, 1) ]} 2)).1
    ⊆ Minesweeper.mines (Minesweeper.Make 1 2 {[ (0, 0); (0, 1) ]}) ∧
  (Sentence.known_safes (Sentence.Make {[ (0, 0); (0, 1) ]} 2)).1
    ## Minesweeper.mines (Minesweeper.Make 1 2 {[ (0, 0); (0, 1) ]}).
Proof.
  apply (known_cells_sound (Minesweeper.Make 1 2 {[ (0, 0); (0, 1) ]})).
  vm_compute. reflexivity.
Defined.

(** X3: no sentence reports both: [known_safes()] or [known_mines()] is
    empty, so the two [self.knowledge.remove(sentence)] of one pass of the
    loop in [add_knowledge] never both run. *)
Theorem known_safes_known_mines_exclusive (s : Sentence.t) :
  (Sentence.known_safes s).1 = ∅ ∨ (Sentence.known_mines s).1 = ∅.
Proof.
  destruct (decide ((Sentence.known_safes s).1 = ∅)) as [He|Hne]; [by left|].
  right. by apply known_safes_mines_excl.
Qed.

(** X4: marking a cell twice. After [mark_mine(cell)] (or
    [mark_safe(cell)]) the cell is not in the sentence, and the same call
    again returns 0 and changes nothing; the first call lowers the count
    by the value it returns ([mark_safe] never changes the count). *)
Theorem sentence_mark_twice (s : Sentence.t) (cell : Cell) :
  let m := Sentence.mark_mine cell s in
  let f := Sentence.mark_safe cell s in
  (cell ∉ Sentence.cells m.2) ∧ (cell ∉ Sentence.cells f.2) ∧
  Sentence.mark_mine cell m.2 = (0, m.2) ∧
  Sentence.mark_safe cell f.2 = (0, f.2) ∧
  Sentence.count m.2 = Sentence.count s - m.1 ∧
  Sentence.count f.2 = Sentence.count s ∧
  (m.1 = 1 ↔ cell ∈ Sentence.cells s) ∧ (f.1 = 1 ↔ cell ∈ Sentence.cells s).
Proof.
  unfold Sentence.mark_mine, Sentence.mark_safe.
  destruct (decide (cell ∈ Sentence.cells s)) as [Hin|Hout]; simpl.
  - rewrite !decide_False by set_solver.
    repeat split; try done; try set_solver; lia.
  - rewrite !decide_False by done.
    repeat split; try done; try lia.
Qed.

(** ** Further properties of the marking methods *)

Lemma size_strike_one (c : Cell) (cs T : gset Cell) :
  c ∉ T →
  Z.of_nat (size (cs ∩ ({[c]} ∪ T))) =
  (if decide (c ∈ cs) then 1 else 0) + Z.of_nat (size ((cs ∖ {[c]}) ∩ T)).
Proof.
  intros Hc. case_decide as Hin.
  - assert (cs ∩ ({[c]} ∪ T) = {[c]} ∪ (cs ∖ {[c]}) ∩ T) as ->.
    { apply leibniz_equiv. intros x.
      rewrite !elem_of_union, !elem_of_intersection, elem_of_difference,
        elem_of_union, elem_of_singleton.
      destruct (decide (x = c)) as [->|]; tauto. }
    rewrite size_union by set_solver. rewrite size_singleton. lia.
  - assert (cs ∩ ({[c]} ∪ T) = (cs ∖ {[c]}) ∩ T) as -> by set_solver. lia.
Qed.

Lemma strike_spec (todo : list Cell) (s : Sentence.t) :
  NoDup todo → strike todo s = without_mines (list_to_set todo) s.
Proof.
  intros Hnd. revert s.
  induction Hnd as [|c todo Hc _ IH]; intros s.
  - destruct s as [cs n]. unfold without_mines; simpl. f_equal; [set_solver|].
    replace (cs ∩ ∅) with (∅ : gset Cell) by set_solver.
    rewrite size_empty. lia.
  - change (strike (c :: todo) s) with (strike todo (Sentence.mark_mine c s).2).
    rewrite IH. unfold without_mines.
    assert (c ∉ (list_to_set todo : gset Cell)) as Hc'
      by (by rewrite elem_of_list_to_set).
    rewrite list_to_set_cons.
    rewrite (size_strike_one c (Sentence.cells s) _ Hc').
    destruct (mark_mine_cells_count c s) as [-> ->].
    f_equal; [set_solver|].
    destruct (decide (c ∈ Sentence.cells s)); lia.
Qed.

(** X5: the loop [for mine in known_mines.union(self.mines):
    self.mark_mine(mine)] reads a set, whose order Python does not fix.
    In whichever order the cells of the set [X] come, once each, the loop
    leaves the same state: [X] is added to [self.mines], and every
    sentence has lost its cells in [X] and has its count lowered by their
    number. *)
Theorem mark_mines_spec (X : gset Cell) (todo : list Cell)
    (self : MinesweeperAI.t) :
  NoDup todo → (∀ c, c ∈ todo ↔ c ∈ X) →
  mark_mines todo self = mark_mines (elements X) self ∧
  mines (mark_mines todo self) = X ∪ mines self ∧
  safes (mark_mines todo self) = safes self ∧
  moves_made (mark_mines todo self) = moves_made self ∧
  knowledge (mark_mines todo self) = without_mines X <$> knowledge self.
Proof.
  intros Hnd Hel.
  assert (list_to_set todo = X) as HX.
  { apply leibniz_equiv. intros c. by rewrite elem_of_list_to_set. }
  split.
  - apply mark_mines_perm, NoDup_Permutation; [done|apply NoDup_elements|].
    intros c. by rewrite Hel, elem_of_elements.
  - destruct (mark_mines_fields todo self) as (_ & _ & -> & -> & -> & ->).
    rewrite HX. repeat split.
    apply list_fmap_ext. intros _ s _. by rewrite strike_spec, HX.
Qed.

(** X5 on the set of [(0,0)] and [(0,1)], read as [(0,1)], [(0,0)]. *)
Lemma mark_mines_spec_witness :
  let self := Make 1 3 ∅ ∅ ∅ [Sentence.Make {[ (0, 0); (0, 1); (0, 2) ]} 2] in
  let X : gset Cell := {[ (0, 0); (0, 1) ]} in
  let todo : list Cell := [(0, 1); (0, 0)] in
  mark_mines todo self = mark_mines (elements X) self ∧
  mines (mark_mines todo self) = X ∪ mines self ∧
  safes (mark_mines todo self) = safes self ∧
  moves_made (mark_mines todo self) = moves_made self ∧
  knowledge (mark_mines todo self) = without_mines X <$> knowledge self.
Proof.
  intros self X todo. apply (mark_mines_spec X todo self).
  - repeat constructor; by_eval.
  - intros c. subst X todo.
    rewrite !elem_of_cons, elem_of_nil, elem_of_union, !elem_of_singleton.
    tauto.
Defined.

(** X6: [MinesweeperAI.mark_mine(cell)] and [mark_safe(cell)] put the
    cell in their set and take it out of every sentence of the knowledge;
    they keep the number of sentences, the moves made, the board size and
    the other set. *)
Theorem mark_purges_cell (cell : Cell) (self : MinesweeperAI.t) :
  let m := mark_mine cell self in
  let f := mark_safe cell self in
  (mines m = {[cell]} ∪ mines self ∧ safes m = safes self ∧
   moves_made m = moves_made self ∧
   length (knowledge m) = length (knowledge self) ∧
   ∀ s, s ∈ knowledge m → cell ∉ Sentence.cells s) ∧
  (safes f = {[cell]} ∪ safes self ∧ mines f = mines self ∧
   moves_made f = moves_made self ∧
   length (knowledge f) = length (knowledge self) ∧
   ∀ s, s ∈ knowledge f → cell ∉ Sentence.cells s).
Proof.
  simpl. split.
  - repeat split; [by rewrite length_fmap|].
    intros s Hs. apply list_elem_of_fmap in Hs as (s0 & -> & _).
    unfold Sentence.mark_mine. case_decide; simpl; set_solver.
  - repeat split; [by rewrite length_fmap|].
    intros s Hs. apply list_elem_of_fmap in Hs as (s0 & -> & _).
    unfold Sentence.mark_safe. case_decide; simpl; set_solver.
Qed.

(** X7: marks on different cells can be made in either order:
    [mark_safe(c1)] then [mark_mine(c2)] leaves the state of
    [mark_mine(c2)] then [mark_safe(c1)]. *)
Theorem mark_safe_mark_mine_commute (c1 c2 : Cell) (self : MinesweeperAI.t) :
  c1 ≠ c2 →
  mark_mine c2 (mark_safe c1 self) = mark_safe c1 (mark_mine c2 self).
Proof.
  intros Hne.
  unfold mark_mine, mark_safe, for_each_sentence, set_knowledge, set_mines,
    set_safes; simpl.
  f_equal. rewrite <- !list_fmap_compose. apply list_fmap_ext.
  intros _ s _. simpl.
  unfold Sentence.mark_mine, Sentence.mark_safe.
  repeat (case_decide; simpl in * ); try done; try set_solver.
  all: try (f_equal; set_solver).
Qed.

(** X7 on the cells [(0,0)] and [(0,1)]. *)
Lemma mark_safe_mark_mine_commute_witness :
  mark_mine (0, 1) (mark_safe (0, 0)
    (Make 1 3 ∅ ∅ ∅ [Sentence.Make {[ (0, 0); (0, 1); (0, 2) ]} 2])) =
  mark_safe (0, 0) (mark_mine (0, 1)
    (Make 1 3 ∅ ∅ ∅ [Sentence.Make {[ (0, 0); (0, 1); (0, 2) ]} 2])).
Proof.
  apply (mark_safe_mark_mine_commute (0, 0) (0, 1)). discriminate.
Defined.

(** X8: on the same cell the order matters: a sentence that holds the
    cell loses one from its count when [mark_mine] comes first and keeps
    its count when [mark_safe] comes first. *)
Theorem mark_same_cell_order_matters (cell : Cell) (s : Sentence.t) :
  cell ∈ Sentence.cells s →
  Sentence.count (Sentence.mark_safe cell (Sentence.mark_mine cell s).2).2
    = Sentence.count s - 1 ∧
  Sentence.count (Sentence.mark_mine cell (Sentence.mark_safe cell s).2).2
    = Sentence.count s.
Proof.
  intros Hin. unfold Sentence.mark_mine, Sentence.mark_safe.
  rewrite !(decide_True (P := cell ∈ Sentence.cells s)) by done. simpl.
  rewrite !decide_False by set_solver. done.
Qed.

(** X8 on the sentence [{(0,0),(0,1)} = 1]. *)
Lemma mark_same_cell_order_matters_witness :
  Sentence.count
    (Sentence.mark_safe (0, 0)
       (Sentence.mark_mine (0, 0) (Sentence.Make {[ (0, 0); (0, 1) ]} 1)).2).2
    = 1 - 1 ∧
  Sentence.count
    (Sentence.mark_mine (0, 0)
       (Sentence.mark_safe (0, 0) (Sentence.Make {[ (0, 0); (0, 1) ]} 1)).2).2
    = 1.
Proof.
  apply (mark_same_cell_order_matters (0, 0) (Sentence.Make {[ (0, 0); (0, 1) ]} 1)).
  by_eval.
Defined.

(** ** Further properties of [add_knowledge] *)

Section Window9.

Implicit Types (cell c : Cell).

Lemma range_3 a : range (a - 1) (a + 2) = [a - 1; a; a + 1].
Proof.
  unfold range. replace (a + 2 - (a - 1)) with 3 by lia.
  unfold seqZ. simpl.
  repeat (apply (f_equal2 cons); [lia|]). done.
Qed.

Lemma window_length cell : length (window cell) = 9%nat.
Proof. unfold window. by rewrite !range_3. Qed.

Lemma elem_of_window cell c :
  c ∈ window cell ↔
  (cell.1 - 1 ≤ c.1 ≤ cell.1 + 1) ∧ (cell.2 - 1 ≤ c.2 ≤ cell.2 + 1).
Proof.
  unfold window. rewrite list_elem_of_bind. split.
  - intros (i & Hc & Hi). apply list_elem_of_bind in Hc as (j & Hc & Hj).
    apply list_elem_of_singleton in Hc as ->. simpl.
    unfold range in Hi, Hj. apply elem_of_seqZ in Hi, Hj. lia.
  - intros [H1 H2]. exists c.1. split.
    + apply list_elem_of_bind. exists c.2. split.
      * destruct c. apply list_elem_of_here.
      * unfold range. apply elem_of_seqZ. lia.
    + unfold range. apply elem_of_seqZ. lia.
Qed.

Lemma window_self cell : cell ∈ window cell.
Proof. apply elem_of_window. lia. Qed.

Lemma nearby_mines_le_8 cell (board : Minesweeper.t) :
  0 ≤ Minesweeper.nearby_mines cell board ≤ 8.
Proof.
  rewrite nearby_mines_filter.
  pose proof (length_filter_lt (counted cell board) (window cell) cell
                (window_self cell)) as Hlt.
  rewrite window_length in Hlt.
  assert (¬ counted cell board cell) by (unfold counted; tauto).
  specialize (Hlt ltac:(done)). lia.
Qed.

End Window9.

(** X9: the cells [add_knowledge] collects for the new sentence are the
    cells around [cell] that lie on the board and are not in the set
    [self.moves_made and self.safes] evaluates to; each is collected
    once, so there are at most eight. A cell in [self.mines] is collected
    like any other. *)
Theorem current_knowledge_cells_spec (cell : Cell) (self : MinesweeperAI.t) :
  (∀ c, c ∈ current_knowledge_cells cell self ↔
        adjacent cell c ∧ in_bounds (height self) (width self) c ∧
        c ∉ py_and (moves_made self) (safes self)) ∧
  NoDup (current_knowledge_cells cell self) ∧
  (length (current_knowledge_cells cell self) ≤ 8)%nat.
Proof.
  rewrite current_knowledge_cells_filter. split; [|split].
  - intros c. rewrite list_elem_of_filter, elem_of_window.
    unfold unresolved, adjacent. tauto.
  - apply NoDup_filter, window_NoDup.
  - pose proof (length_filter_lt (unresolved cell self) (window cell) cell
                  (window_self cell)) as Hlt.
    rewrite window_length in Hlt.
    assert (¬ unresolved cell self cell) by (unfold unresolved; tauto).
    specialize (Hlt ltac:(done)). lia.
Qed.

(** X10: [Minesweeper.nearby_mines] is the number of mines among the
    cells around [cell] that lie on the board: between 0 and 8, and never
    more than there are mines. *)
Theorem nearby_mines_bounds (cell : Cell) (board : Minesweeper.t) :
  Minesweeper.nearby_mines cell board =
    Z.of_nat (size (filter (fun c => adjacent cell c ∧
                in_bounds (Minesweeper.height board) (Minesweeper.width board) c)
                (Minesweeper.mines board))) ∧
  0 ≤ Minesweeper.nearby_mines cell board ≤ 8 ∧
  Minesweeper.nearby_mines cell board ≤ Z.of_nat (size (Minesweeper.mines board)).
Proof.
  rewrite nearby_mines_filter.
  assert (NoDup (filter (counted cell board) (window cell))) as Hnd
    by apply NoDup_filter, window_NoDup.
  split; [|split].
  - f_equal. rewrite <- (size_list_to_set (C := gset Cell)) by done.
    f_equal. apply leibniz_equiv. intros c.
    rewrite elem_of_list_to_set, list_elem_of_filter, elem_of_filter,
      elem_of_window.
    unfold counted, adjacent. tauto.
  - rewrite <- nearby_mines_filter. apply nearby_mines_le_8.
  - rewrite <- (size_list_to_set (C := gset Cell)) by done.
    apply inj_le, subseteq_size. intros c.
    rewrite elem_of_list_to_set, list_elem_of_filter. unfold counted. tauto.
Qed.

Section Shrinking.

Implicit Types (s : Sentence.t) (self : MinesweeperAI.t).

Lemma shrunk_refl s : shrunk s s.
Proof. unfold shrunk. split; [done|]. split; lia. Qed.

Lemma shrunk_trans s1 s2 s3 : shrunk s1 s2 → shrunk s2 s3 → shrunk s1 s3.
Proof.
  unfold shrunk. intros (Hc1 & Hle1 & Hd1) (Hc2 & Hle2 & Hd2).
  split; [set_solver|]. split; [lia|].
  replace (Sentence.cells s1 ∖ Sentence.cells s3)
    with ((Sentence.cells s1 ∖ Sentence.cells s2) ∪
          (Sentence.cells s2 ∖ Sentence.cells s3)).
  - rewrite size_union by set_solver. lia.
  - apply leibniz_equiv. intros c. rewrite !elem_of_union, !elem_of_difference.
    destruct (decide (c ∈ Sentence.cells s2)); set_solver.
Qed.

Lemma shrunk_mark_mine c s : shrunk s (Sentence.mark_mine c s).2.
Proof.
  unfold Sentence.mark_mine. case_decide as Hin; [|apply shrunk_refl].
  unfold shrunk; simpl. split; [set_solver|]. split; [lia|].
  replace (Sentence.cells s ∖ (Sentence.cells s ∖ {[c]})) with ({[c]} : gset Cell).
  - rewrite size_singleton. lia.
  - apply leibniz_equiv. intros x.
    rewrite !elem_of_difference, elem_of_singleton.
    destruct (decide (x = c)); set_solver.
Qed.

Lemma shrunk_mark_safe c s : shrunk s (Sentence.mark_safe c s).2.
Proof.
  unfold Sentence.mark_safe. case_decide as Hin; [|apply shrunk_refl].
  unfold shrunk; simpl. split; [set_solver|]. split; lia.
Qed.

Lemma shrunk_strike todo s : shrunk s (strike todo s).
Proof.
  revert s. induction todo as [|c todo IH]; intros s; [apply shrunk_refl|].
  eapply shrunk_trans; [apply (shrunk_mark_mine c)|apply IH].
Qed.

Lemma descends_body origin sentence self self' :
  descends origin (knowledge self) → body_post sentence self self' →
  descends origin (knowledge self').
Proof.
  intros Hd Hpost. destruct Hpost as [k _ _ Hrm|k _ _ Hrm|]; [| |done].
  - simpl. by eapply list_remove_Forall.
  - rewrite mark_mines_knowledge. simpl.
    apply Forall_fmap. eapply Forall_impl; [by eapply list_remove_Forall|].
    intros s' (s & Hs & Hsh). exists s. split; [done|]. simpl.
    eapply shrunk_trans; [done|apply shrunk_strike].
Qed.

End Shrinking.

(** X11: [add_knowledge] records the move and nothing else in
    [moves_made], and keeps the board size; [mark_mine] and [mark_safe]
    are not needed for that. *)
Theorem add_knowledge_records_move (cell : Cell) (count : Z)
    (self : MinesweeperAI.t) :
  ∃ self',
    add_knowledge cell count self = Ok self' ∧
    moves_made self' = {[cell]} ∪ moves_made self ∧
    height self' = height self ∧ width self' = width self.
Proof.
  apply (add_knowledge_inv
           (fun s => moves_made s = {[cell]} ∪ moves_made self ∧
                     height s = height self ∧ width s = width self)).
  - intros sentence s1 s2 _ (Hmm & Hh & Hw) Hpost.
    destruct (body_post_grows _ _ _ Hpost) as (Hh' & Hw' & _).
    rewrite (body_post_moves_made _ _ _ Hpost). by rewrite Hh', Hw'.
  - unfold before_loop, marked. by repeat (case_decide; simpl).
Qed.

(** X12: however a fresh instance is driven, every move made is in
    [self.safes]; so the test against [self.moves_made and self.safes]
    in [add_knowledge] loses nothing by looking at [self.safes] only. *)
Theorem moves_made_are_safe (h w : Z) (ops : list call) :
  ∃ self, run ops (init h w) = Ok self ∧ moves_made self ⊆ safes self.
Proof.
  destruct (run_grows ops (init h w)) as (self & Hrun & _).
  exists self. split; [done|].
  eapply (moves_safe_run ops (init h w)); [|done]. done.
Qed.

(** X13: [add_knowledge] adds at most one sentence, and derives none:
    every sentence of the knowledge after the call is a sentence that was
    there before, or the one built for the call, with some cells taken out
    and its count lowered by at most that many. *)
Theorem knowledge_only_shrinks (cell : Cell) (count : Z)
    (self : MinesweeperAI.t) :
  ∃ self',
    add_knowledge cell count self = Ok self' ∧
    (length (knowledge self') ≤ S (length (knowledge self)))%nat ∧
    ∀ s', s' ∈ knowledge self' →
          ∃ s, (s ∈ knowledge self ∨ s = new_sentence cell count self) ∧
               shrunk s s'.
Proof.
  set (origin := knowledge self ++ [new_sentence cell count self]).
  destruct (add_knowledge_inv
              (fun st => (length (knowledge st) ≤ S (length (knowledge self)))%nat ∧
                         descends origin (knowledge st)) cell count self)
    as (self' & Hrun & Hlen & Hd).
  - intros sentence s1 s2 _ [Hlen Hd] Hpost. split.
    + pose proof (body_post_length _ _ _ Hpost). lia.
    + by eapply descends_body.
  - assert (length (knowledge (marked cell self)) = length (knowledge self) ∧
            descends origin (knowledge (marked cell self))) as [Hlen Hd].
    { unfold marked. case_decide; simpl.
      - rewrite length_fmap. split; [done|].
        apply Forall_fmap, Forall_forall. intros s Hs. exists s. simpl.
        split; [|apply shrunk_mark_safe].
        subst origin. apply elem_of_app. by left.
      - split; [done|]. apply Forall_forall. intros s Hs. exists s.
        split; [|apply shrunk_refl].
        subst origin. apply elem_of_app. by left. }
    unfold before_loop. case_decide; simpl.
    + rewrite length_app. simpl. split; [lia|].
      apply Forall_app. split; [done|]. apply Forall_singleton.
      exists (new_sentence cell count self). split; [|apply shrunk_refl].
      subst origin. apply elem_of_app. right. apply list_elem_of_here.
    + split; [lia|done].
  - exists self'. split; [done|]. split; [done|].
    intros s' Hs'. destruct (proj1 (Forall_forall _ _) Hd _ Hs') as (s & Hs & Hsh).
    exists s. split; [|done].
    subst origin. apply elem_of_app in Hs as [Hs|Hs]; [by left|right].
    by apply list_elem_of_singleton in Hs.
Qed.

Section Play.

Implicit Types (self : MinesweeperAI.t) (c cell : Cell).

Lemma make_safe_move_Some pick self c st :
  make_safe_move pick self = Ok (Some c, st) →
  c ∈ safes self ∧ c ∉ moves_made self.
Proof.
  destruct self as [h w mm mi sa kn].
  unfold make_safe_move, to_store, set_copy, set_isub, set_pop, of_store.
  simpl. case_decide; [done|].
  destruct (elements (sa ∖ mm) !! _) as [c'|] eqn:E; simpl; [|done].
  intros [= <- _]. apply list_elem_of_lookup_2, elem_of_elements in E.
  set_solver.
Qed.

Lemma marked_fields cell self :
  safes (marked cell self) = {[cell]} ∪ safes self ∧
  mines (marked cell self) = mines self ∧
  (knowledge self = [] → knowledge (marked cell self) = []).
Proof.
  unfold marked. case_decide as Hc; simpl.
  - split; [done|]. split; [done|]. by intros ->.
  - simpl in Hc. split; [set_solver|done].
Qed.

Lemma elem_of_all_cells self c :
  c ∈ all_cells self ↔ in_bounds (height self) (width self) c.
Proof.
  unfold all_cells, in_bounds, range.
  rewrite elem_of_list_to_set, list_elem_of_bind. split.
  - intros (i & Hc & Hi). apply list_elem_of_bind in Hc as (j & Hc & Hj).
    apply list_elem_of_singleton in Hc as ->. simpl.
    apply elem_of_seqZ in Hi, Hj. lia.
  - intros [H1 H2]. exists c.1. split.
    + apply list_elem_of_bind. exists c.2. split.
      * destruct c. apply list_elem_of_here.
      * apply elem_of_seqZ. lia.
    + apply elem_of_seqZ. lia.
Qed.

Lemma random_cell_in_bounds rng pos self c pos' :
  random_cell rng pos self = Ok (c, pos') →
  in_bounds (height self) (width self) c.
Proof.
  unfold random_cell, randrange, mbind, outcome_bind.
  case_decide as Hh; [done|]. case_decide as Hw; [done|].
  intros [= <- _]. unfold in_bounds; simpl.
  pose proof (Z.mod_pos_bound (rng pos) (height self)).
  pose proof (Z.mod_pos_bound (rng (S pos)) (width self)). lia.
Qed.

Lemma redraw_spec fuel rng pos not_safe c0 self c :
  in_bounds (height self) (width self) c0 →
  redraw fuel rng pos not_safe c0 self = Ok c →
  in_bounds (height self) (width self) c ∧ c ∉ not_safe.
Proof.
  revert pos c0. induction fuel as [|fuel IH]; intros pos c0 Hc0; simpl.
  - case_decide; [done|]. by intros [= <-].
  - case_decide; [|by intros [= <-]].
    destruct (random_cell rng pos self) as [[c1 pos1]| |] eqn:E; simpl; try done.
    apply IH. by eapply random_cell_in_bounds.
Qed.

(** On a list of one sentence the loop is one pass of its body. *)
Lemma infer_loop_singleton self s :
  knowledge self = [s] →
  ∃ self', infer_loop (length (knowledge self)) 0 self = Ok self' ∧
           body_post s self self'.
Proof.
  intros Hk. rewrite Hk. simpl. rewrite Hk. simpl.
  destruct (infer_body_spec s self) as (st1 & -> & Hpost).
  { rewrite Hk. apply list_elem_of_here. }
  simpl.
  assert (knowledge st1 !! 1%nat = None) as ->.
  { apply lookup_ge_None. pose proof (body_post_length _ _ _ Hpost) as Hl.
    rewrite Hk in Hl. simpl in Hl. lia. }
  eauto.
Qed.

End Play.

(** X14: play that tells the truth is never misled. When every call
    agrees with one board, the state reached from a fresh instance has
    only mines of the board in [self.mines], no mine of the board in
    [self.safes], only true sentences, and a cell [make_safe_move]
    returns is not a mine. *)
Theorem truthful_play_sound (board : Minesweeper.t) (ops : list call) :
  Forall (truthful board) ops →
  ∃ self,
    run ops (init (Minesweeper.height board) (Minesweeper.width board)) = Ok self ∧
    mines self ⊆ Minesweeper.mines board ∧
    safes self ## Minesweeper.mines board ∧
    Forall (holds board) (knowledge self) ∧
    ∀ pick c st, make_safe_move pick self = Ok (Some c, st) →
                 c ∉ Minesweeper.mines board.
Proof.
  intros Hops.
  destruct (consistent_run board ops _ Hops (consistent_init board))
    as (self & Hrun & _ & _ & Hm & Hs & Hk).
  exists self. repeat split; [done..|].
  intros pick c st Hmove. apply make_safe_move_Some in Hmove. set_solver.
Qed.

(** X14 on a 1x5 board whose only mine is [(0,0)]. *)
Lemma truthful_play_sound_witness :
  ∃ self,
    run [AddKnowledge (0, 2) 0; AddKnowledge (0, 1) 1] (init 1 5) = Ok self ∧
    mines self ⊆ Minesweeper.mines (Minesweeper.Make 1 5 {[ (0, 0) ]}) ∧
    safes self ## Minesweeper.mines (Minesweeper.Make 1 5 {[ (0, 0) ]}) ∧
    Forall (holds (Minesweeper.Make 1 5 {[ (0, 0) ]})) (knowledge self) ∧
    ∀ pick c st, make_safe_move pick self = Ok (Some c, st) →
                 c ∉ Minesweeper.mines (Minesweeper.Make 1 5 {[ (0, 0) ]}).
Proof.
  apply (truthful_play_sound (Minesweeper.Make 1 5 {[ (0, 0) ]})
           [AddKnowledge (0, 2) 0; AddKnowledge (0, 1) 1]).
  repeat constructor; simpl; try by_eval.
Defined.

(** X15: the first observation. On an instance with no sentence yet,
    [add_knowledge(cell, count)] marks the cell safe and then: with count
    0 it adds all collected neighbours to [self.safes]; with a count equal
    to their number it adds them all to [self.mines]; otherwise it keeps
    the one sentence. In the first two cases no sentence is left. *)
Theorem first_observation (cell : Cell) (count : Z) (self : MinesweeperAI.t) :
  knowledge self = [] →
  let cs : gset Cell :=
    list_to_set (current_knowledge_cells cell (marked cell self)) in
  ∃ self',
    add_knowledge cell count self = Ok self' ∧
    (count = 0 →
     safes self' = {[cell]} ∪ safes self ∪ cs ∧ mines self' = mines self ∧
     knowledge self' = []) ∧
    (count ≠ 0 → count = Z.of_nat (size cs) →
     mines self' = mines self ∪ cs ∧ safes self' = {[cell]} ∪ safes self ∧
     knowledge self' = []) ∧
    (count ≠ 0 → count ≠ Z.of_nat (size cs) → cs ≠ ∅ →
     mines self' = mines self ∧ safes self' = {[cell]} ∪ safes self ∧
     knowledge self' = [Sentence.Make cs count]).
Proof.
  intros Hk cs.
  destruct (marked_fields cell self) as (Hs & Hm & Hk').
  specialize (Hk' Hk).
  rewrite add_knowledge_unfold. unfold before_loop. fold cs.
  case_decide as Hlen.
  - set (st := set_knowledge _ _).
    assert (knowledge st = [Sentence.Make cs count]) as Hst
      by (subst st; simpl; by rewrite Hk').
    assert (cs ≠ ∅) as Hne.
    { subst cs. destruct (current_knowledge_cells _ _) as [|c l]; [done|].
      set_solver. }
    destruct (infer_loop_singleton st _ Hst) as (st1 & -> & Hpost).
    exists st1. split; [done|].
    assert (safes st = {[cell]} ∪ safes self) as Hs' by (subst st; done).
    assert (mines st = mines self) as Hm' by (subst st; done).
    clearbody st.
    destruct Hpost as [k H0 _ Hrm|k Hsz _ Hrm|Hks Hkm].
    + rewrite Hst in Hrm. simpl in Hrm. rewrite decide_True in Hrm by done.
      injection Hrm as <-. cbn in H0. cbn [Sentence.cells].
      split; [intros _; cbn; by rewrite Hs', Hm'|]. split; [lia|lia].
    + rewrite Hst in Hrm. simpl in Hrm. rewrite decide_True in Hrm by done.
      injection Hrm as <-. cbn in Hsz. cbn [Sentence.cells].
      destruct (mark_mines_fields (elements (cs ∪ mines st)) (set_knowledge [] st))
        as (_ & _ & _ & Hss & Hmm & Hkk).
      split; [|split].
      * intros H0. rewrite H0 in Hsz.
        exfalso. apply Hne, leibniz_equiv, size_empty_iff. lia.
      * intros _ _. rewrite Hss, Hmm, Hkk. cbn. rewrite Hs', Hm'.
        split; [|done]. apply leibniz_equiv. intros c.
        rewrite !elem_of_union, elem_of_list_to_set, elem_of_elements. set_solver.
      * lia.
    + rewrite known_safes_eq in Hks. rewrite known_mines_eq in Hkm. cbn in Hks, Hkm.
      split; [|split].
      * intros H0. by rewrite decide_True in Hks.
      * intros _ Hsz. by rewrite decide_True in Hkm.
      * intros _ _ _. by rewrite Hst, Hs', Hm'.
  - assert (cs = ∅) as Hcs.
    { subst cs. by destruct (current_knowledge_cells _ _). }
    rewrite Hk'. simpl. rewrite Hk'. simpl.
    exists (marked cell self). split; [done|]. rewrite Hs, Hm, Hk', Hcs.
    split; [intros _; split; [set_solver|done]|].
    split; [|done]. intros Hc0 Hc. rewrite size_empty in Hc. done.
Qed.

(** X15 on a fresh 3x3 instance, the corner observed with count 0. *)
Lemma first_observation_witness :
  ∃ self',
    add_knowledge (0, 0) 0 (init 3 3) = Ok self' ∧
    safes self' = {[ (0, 0); (0, 1); (1, 0); (1, 1) ]} ∧
    mines self' = ∅ ∧ knowledge self' = [].
Proof.
  destruct (first_observation (0, 0) 0 (init 3 3) eq_refl)
    as (self' & Hrun & H0 & _).
  exists self'. split; [exact Hrun|].
  destruct (H0 eq_refl) as (Hs & Hm & Hk).
  split; [|split; [exact Hm|exact Hk]].
  rewrite Hs. vm_compute. reflexivity.
Defined.

(** ** Further properties of [make_random_move] *)

(** X16: a cell [make_random_move] returns is on the board, has not been
    chosen and is not a known mine, whatever the randomness source. *)
Theorem make_random_move_returns_candidate (fuel : nat) (rng : nat → Z)
    (self : MinesweeperAI.t) (c : Cell) :
  make_random_move fuel rng self = Ok (Some c) → c ∈ candidates self.
Proof.
  unfold make_random_move. case_decide; [done|].
  destruct (random_cell rng 0 self) as [[c0 pos]| |] eqn:E; simpl; try done.
  destruct (redraw fuel rng pos _ c0 self) as [c'| |] eqn:R; simpl; try done.
  intros [= <-].
  apply redraw_spec in R as [Hb Hns]; [|by eapply random_cell_in_bounds].
  unfold candidates. apply elem_of_all_cells in Hb. set_solver.
Qed.

(** X16 on a 1x2 instance with [(0,0)] chosen: the draws 0, 0 give
    [(0,0)], the draws 0, 1 then give [(0,1)]. *)
Lemma make_random_move_returns_candidate_witness :
  ((0, 1) : Cell) ∈ candidates (Make 1 2 {[ (0, 0) ]} ∅ {[ (0, 0) ]} []).
Proof.
  apply (make_random_move_returns_candidate 1
           (fun n => if decide (n = 3%nat) then 1 else 0)).
  vm_compute. reflexivity.
Defined.

(** X17: every candidate can be returned. Unless exactly 56 moves have
    been made, a first pair of draws equal to the coordinates of a cell
    that is on the board, not chosen and not a known mine makes
    [make_random_move] return that cell without drawing again. *)
Theorem make_random_move_reaches_candidate (fuel : nat) (rng : nat → Z)
    (self : MinesweeperAI.t) (c : Cell) :
  c ∈ candidates self →
  size (moves_made self) ≠ 56%nat →
  rng 0%nat = c.1 → rng 1%nat = c.2 →
  make_random_move fuel rng self = Ok (Some c).
Proof.
  unfold candidates. intros Hc Hsize H1 H2.
  assert (in_bounds (height self) (width self) c) as [Hb1 Hb2]
    by (apply elem_of_all_cells; set_solver).
  unfold make_random_move, random_cell, randrange, mbind, outcome_bind.
  rewrite decide_False by done.
  rewrite !decide_False by lia.
  rewrite H1, H2, !Z.mod_small by lia.
  replace (c.1, c.2) with c by (by destruct c).
  destruct fuel; simpl; by rewrite decide_False by set_solver.
Qed.

(** X17 on a 1x2 instance with [(0,0)] chosen and the draws 0, 1. *)
Lemma make_random_move_reaches_candidate_witness :
  make_random_move 0 (fun n => Z.of_nat n)
    (Make 1 2 {[ (0, 0) ]} ∅ {[ (0, 0) ]} []) = Ok (Some (0, 1)).
Proof.
  apply (make_random_move_reaches_candidate 0 (fun n => Z.of_nat n)
           (Make 1 2 {[ (0, 0) ]} ∅ {[ (0, 0) ]} []) (0, 1)).
  - by_eval.
  - vm_compute. discriminate.
  - reflexivity.
  - reflexivity.
Defined.

(** X18: on an instance without rows or without columns
    [random.randrange] has an empty range: unless exactly 56 moves have
    been made, [make_random_move] raises [ValueError]. *)
Theorem make_random_move_empty_board (fuel : nat) (rng : nat → Z)
    (self : MinesweeperAI.t) :
  height self ≤ 0 ∨ width self ≤ 0 →
  size (moves_made self) ≠ 56%nat →
  make_random_move fuel rng self = Raise ValueError.
Proof.
  intros Hdim Hsize.
  unfold make_random_move, random_cell, randrange, mbind, outcome_bind.
  rewrite decide_False by done.
  destruct (decide (height self ≤ 0)); [done|].
  destruct (decide (width self ≤ 0)); [done|]. lia.
Qed.

(** X18 on a fresh instance of height 0. *)
Lemma make_random_move_empty_board_witness :
  make_random_move 0 (fun _ => 0) (init 0 8) = Raise ValueError.
Proof.
  apply (make_random_move_empty_board 0 (fun _ => 0) (init 0 8)).
  - left. simpl. lia.
  - vm_compute. discriminate.
Defined.

(** ** The board of [Minesweeper] *)

Section GameFacts.

Implicit Types (g : Game.t) (c cell : Cell).

Lemma foldl_append_const {A B} (x : A) (l : list B) (acc : list A) :
  foldl (fun acc _ => acc ++ [x]) acc l = acc ++ replicate (length l) x.
Proof.
  revert acc. induction l as [|y l IH]; intros acc; simpl.
  - by rewrite app_nil_r.
  - rewrite IH, <- app_assoc. done.
Qed.

Lemma range_0_length n : length (range 0 n) = Z.to_nat n.
Proof. unfold range. rewrite length_seqZ. f_equal. lia. Qed.

Lemma blank_row_eq w : Game.blank_row w = replicate (Z.to_nat w) false.
Proof.
  unfold Game.blank_row. by rewrite foldl_append_const, range_0_length.
Qed.

Lemma blank_board_eq h w :
  Game.blank_board h w = replicate (Z.to_nat h) (replicate (Z.to_nat w) false).
Proof.
  unfold Game.blank_board.
  by rewrite foldl_append_const, range_0_length, blank_row_eq.
Qed.

Lemma getitem_in_range {A} (l : list A) (i : Z) (x : A) :
  0 ≤ i → l !! Z.to_nat i = Some x → Game.getitem l i = Game.Done x.
Proof.
  intros Hi Hx. pose proof (lookup_lt_Some _ _ _ Hx).
  unfold Game.getitem, Game.position.
  rewrite (decide_False (P := i < 0)) by lia. rewrite decide_True by lia.
  simpl. by rewrite Hx.
Qed.

Lemma setitem_in_range {A} (l : list A) (i : Z) (v : A) :
  0 ≤ i < Z.of_nat (length l) →
  Game.setitem l i v = Game.Done (<[Z.to_nat i := v]> l).
Proof.
  intros Hi. unfold Game.setitem, Game.position.
  rewrite (decide_False (P := i < 0)) by lia. by rewrite decide_True by lia.
Qed.

(** A well-formed board has a row for every row index on the board, and
    the row has an entry for every column index. *)
Lemma well_formed_lookup g c :
  Game.well_formed g → in_bounds (Game.height g) (Game.width g) c →
  ∃ row, Game.board g !! Z.to_nat c.1 = Some row ∧
         row !! Z.to_nat c.2 = Some (bool_decide (c ∈ Game.mines g)) ∧
         length row = Z.to_nat (Game.width g).
Proof.
  intros (Hlen & Hrows & _ & Hmark) [H1 H2].
  destruct (lookup_lt_is_Some_2 (Game.board g) (Z.to_nat c.1)) as [row Hrow];
    [lia|].
  exists row. split; [done|]. split; [by apply Hmark|].
  by apply (proj1 (Forall_lookup _ _) Hrows _ _ Hrow).
Qed.

Lemma well_formed_blank h w :
  Game.well_formed (Game.Make h w ∅ (Game.blank_board h w) ∅).
Proof.
  unfold Game.well_formed; simpl. rewrite blank_board_eq.
  split; [by rewrite length_replicate|]. split; [|split].
  - apply Forall_replicate. by rewrite length_replicate.
  - set_solver.
  - intros c row [H1 H2] Hrow.
    apply lookup_replicate in Hrow as [-> _].
    rewrite lookup_replicate_2 by lia.
    by rewrite bool_decide_eq_false_2 by set_solver.
Qed.

(** Marking a cell on the board and in the set keeps the board
    well-formed. *)
Lemma well_formed_mark g i j row :
  Game.well_formed g → in_bounds (Game.height g) (Game.width g) (i, j) →
  Game.board g !! Z.to_nat i = Some row →
  Game.well_formed
    (Game.set_board (<[Z.to_nat i := <[Z.to_nat j := true]> row]> (Game.board g))
       (Game.set_mines ({[(i, j)]} ∪ Game.mines g) g)).
Proof.
  intros Hwf Hij Hrow.
  destruct (well_formed_lookup g (i, j) Hwf Hij) as (row' & Hrow' & _ & Hlrow).
  simpl in Hrow'. rewrite Hrow in Hrow'. injection Hrow' as <-.
  destruct Hwf as (Hlen & Hrows & Hin & Hmark).
  destruct Hij as [Hi Hj]. simpl in Hi, Hj.
  unfold Game.well_formed; simpl.
  split; [by rewrite length_insert|]. split; [|split].
  - apply Forall_insert; [done|]. by rewrite length_insert.
  - intros c Hc. apply elem_of_union in Hc as [Hc|Hc]; [|by apply Hin].
    apply elem_of_singleton in Hc as ->. by split.
  - intros c r Hc Hr. pose proof Hc as [Hc1 Hc2].
    destruct (decide (c.1 = i)) as [Hci|Hci].
    + rewrite Hci, list_lookup_insert_eq in Hr
        by (apply lookup_lt_Some in Hrow; lia).
      injection Hr as <-.
      destruct (decide (c.2 = j)) as [Hcj|Hcj].
      * rewrite Hcj, list_lookup_insert_eq by lia.
        rewrite bool_decide_eq_true_2; [done|].
        destruct c; simpl in *; subst. set_solver.
      * rewrite list_lookup_insert_ne by lia.
        rewrite (Hmark c row Hc) by (by rewrite Hci).
        f_equal. apply bool_decide_ext.
        rewrite elem_of_union, elem_of_singleton.
        split; [by right|]. intros [->|?]; [done|done].
    + rewrite list_lookup_insert_ne in Hr by lia.
      rewrite (Hmark c r Hc Hr).
      f_equal. apply bool_decide_ext.
      rewrite elem_of_union, elem_of_singleton.
      split; [by right|]. intros [->|?]; [done|done].
Qed.

Lemma length_bind_const {A B} (f : A → list B) (k : nat) (l : list A) :
  (∀ x, length (f x) = k) → length (l ≫= f) = (length l * k)%nat.
Proof.
  intros Hf. induction l as [|x l IH]; [done|].
  rewrite bind_cons, length_app, IH, Hf. simpl. lia.
Qed.

Lemma size_list_to_set_le (l : list Cell) :
  (size (list_to_set l : gset Cell) ≤ length l)%nat.
Proof.
  induction l as [|c l IH]; [by rewrite list_to_set_nil, size_empty|].
  rewrite list_to_set_cons, size_union_alt, size_singleton.
  assert (size (list_to_set l ∖ {[c]} : gset Cell)
          ≤ size (list_to_set l : gset Cell))%nat
    by (apply subseteq_size; set_solver).
  simpl. lia.
Qed.

(** A set of cells of an [h] by [w] board has at most [h * w] members. *)
Lemma in_bounds_size (X : gset Cell) (h w : Z) :
  (∀ c, c ∈ X → in_bounds h w c) →
  Z.of_nat (size X) ≤ Z.max 0 h * Z.max 0 w.
Proof.
  intros HX.
  set (grid := i ← range 0 h; j ← range 0 w; [(i, j)]).
  assert (X ⊆ (list_to_set grid : gset Cell)) as Hsub.
  { intros c Hc. apply (elem_of_all_cells (MinesweeperAI.init h w)).
    by apply HX. }
  apply subseteq_size in Hsub.
  pose proof (size_list_to_set_le grid) as Hle.
  assert (length grid = (Z.to_nat h * Z.to_nat w)%nat) as Hlen.
  { subst grid. rewrite (length_bind_const _ (Z.to_nat w)).
    - by rewrite range_0_length.
    - intros i. rewrite (length_bind_const _ 1%nat) by done.
      rewrite range_0_length. lia. }
  assert (Z.of_nat (Z.to_nat h * Z.to_nat w) = Z.max 0 h * Z.max 0 w) as Hmul
    by (rewrite Nat2Z.inj_mul; f_equal; lia).
  rewrite <- Hmul, <- Hlen. apply inj_le. by etrans.
Qed.

(** What the placing loop can end in, from a well-formed board. *)
Lemma place_spec fuel rng pos h w n g :
  Game.well_formed g → Game.height g = h → Game.width g = w →
  match Game.place fuel rng pos h w n g with
  | Game.Done g' =>
      Game.well_formed g' ∧ Game.height g' = h ∧ Game.width g' = w ∧
      Z.of_nat (size (Game.mines g')) = n ∧
      Game.mines_found g' = Game.mines_found g
  | Game.Fail e => e = Game.RangeError ∧ (h ≤ 0 ∨ w ≤ 0)
  | Game.Unfinished => True
  end.
Proof.
  revert pos g. induction fuel as [|fuel IH]; intros pos g Hwf Hh Hw; simpl.
  - case_decide as Hn; [done|]. done.
  - case_decide as Hn; [|done].
    unfold Game.draw, MinesweeperAI.randrange.
    destruct (decide (h ≤ 0)) as [Hh0|Hh0]; simpl; [auto|].
    destruct (decide (w ≤ 0)) as [Hw0|Hw0]; simpl; [auto|].
    set (i := rng pos `mod` h). set (j := rng (S pos) `mod` w).
    assert (in_bounds (Game.height g) (Game.width g) (i, j)) as Hij.
    { rewrite Hh, Hw. split; simpl; apply Z.mod_pos_bound; lia. }
    destruct (well_formed_lookup g (i, j) Hwf Hij) as (row & Hrow & Hb & Hlrow).
    simpl in Hrow, Hb. destruct Hij as [Hi Hj]; simpl in Hi, Hj.
    rewrite (getitem_in_range _ _ _ (proj1 Hi) Hrow). simpl.
    rewrite (getitem_in_range _ _ _ (proj1 Hj) Hb). simpl.
    match goal with |- context [negb ?b] => destruct b eqn:Hmine end; simpl.
    + by apply IH.
    + rewrite setitem_in_range by lia. simpl.
      rewrite setitem_in_range
        by (destruct Hwf as (Hlen & _); rewrite Hlen; lia).
      simpl.
      specialize (IH (S (S pos)) _
                     (well_formed_mark g i j row Hwf (conj Hi Hj) Hrow) Hh Hw).
      destruct (Game.place fuel rng _ h w n _); [|done..].
      done.
Qed.

Lemma init_spec fuel rng h w n :
  match Game.init fuel rng h w n with
  | Game.Done g =>
      Game.well_formed g ∧ Game.height g = h ∧ Game.width g = w ∧
      Z.of_nat (size (Game.mines g)) = n ∧ Game.mines_found g = ∅
  | Game.Fail e => e = Game.RangeError ∧ (h ≤ 0 ∨ w ≤ 0)
  | Game.Unfinished => True
  end.
Proof.
  unfold Game.init.
  change (Game.set_board _ (Game.Make h w ∅ [] ∅))
    with (Game.Make h w ∅ (Game.blank_board h w) ∅).
  pose proof (place_spec fuel rng 0 h w n _
                (well_formed_blank h w) eq_refl eq_refl) as Hplace.
  destruct (Game.place fuel rng 0 h w n _) as [g| |];
    cbn [mbind Game.result_bind]; [|done..].
  destruct Hplace as (Hwf & Hh & Hw & Hn & _).
  split; [|done]. exact Hwf.
Qed.

Lemma is_mine_in_bounds g c :
  Game.well_formed g → in_bounds (Game.height g) (Game.width g) c →
  Game.is_mine c g = Game.Done (bool_decide (c ∈ Game.mines g)).
Proof.
  intros Hwf Hc.
  destruct (well_formed_lookup g c Hwf Hc) as (row & Hrow & Hb & _).
  destruct Hc as [Hc1 Hc2]. unfold Game.is_mine.
  rewrite (getitem_in_range _ _ _ (proj1 Hc1) Hrow).
  cbn [mbind Game.result_bind].
  by rewrite (getitem_in_range _ _ _ (proj1 Hc2) Hb).
Qed.

Lemma is_mine_false g c :
  Game.well_formed g → Game.is_mine c g = Game.Done false →
  c ∉ Game.mines g.
Proof.
  intros Hwf Hc Hin.
  assert (in_bounds (Game.height g) (Game.width g) c) as Hb
    by (by apply Hwf).
  rewrite (is_mine_in_bounds g c Hwf Hb) in Hc.
  injection Hc as Hc. by apply bool_decide_eq_false in Hc.
Qed.

Lemma nearby_mines_refines cell g :
  Game.well_formed g →
  Game.nearby_mines cell g =
  Game.Done (Minesweeper.nearby_mines cell (Game.to_board g)).
Proof.
  intros Hwf. unfold Game.nearby_mines, Minesweeper.nearby_mines.
  generalize 0 as k.
  induction (window cell) as [|c l IH]; intros k; [done|].
  cbn [foldl]. rewrite <- IH. f_equal.
  cbn [mbind Game.result_bind Game.to_board Minesweeper.height
       Minesweeper.width Minesweeper.mines].
  destruct (decide (c = cell)); [done|].
  destruct (decide (in_bounds (Game.height g) (Game.width g) c)) as [Hc|]; [|done].
  destruct (well_formed_lookup g c Hwf Hc) as (row & Hrow & Hb & _).
  destruct Hc as [Hc1 Hc2].
  rewrite (getitem_in_range _ _ _ (proj1 Hc1) Hrow).
  cbn [mbind Game.result_bind].
  rewrite (getitem_in_range _ _ _ (proj1 Hc2) Hb).
  cbn [mbind Game.result_bind].
  destruct (decide (c ∈ Game.mines g)) as [Hm|Hm].
  - by rewrite bool_decide_eq_true_2.
  - by rewrite bool_decide_eq_false_2.
Qed.

Lemma small_game_init : Game.init 3 small_rng 2 2 2 = Game.Done small_game.
Proof. vm_compute. reflexivity. Qed.

Lemma small_game_well_formed : Game.well_formed small_game.
Proof.
  pose proof (init_spec 3 small_rng 2 2 2) as H.
  rewrite small_game_init in H. apply H.
Qed.

End GameFacts.

(** X19: a game [Minesweeper(height, width, mines)] that has been built
    has the size asked for and exactly [mines] mines, all on the board;
    its board has [height] rows of [width] entries and marks exactly the
    cells of [self.mines]; no mine is found yet, so the game is won from
    the start exactly when it has no mine. The number asked for is then
    between 0 and the number of cells. *)
Theorem minesweeper_init_spec (fuel : nat) (rng : nat → Z) (h w n : Z)
    (g : Game.t) :
  Game.init fuel rng h w n = Game.Done g →
  Game.height g = h ∧ Game.width g = w ∧
  Z.of_nat (size (Game.mines g)) = n ∧
  Game.mines_found g = ∅ ∧
  Game.well_formed g ∧
  0 ≤ n ≤ Z.max 0 h * Z.max 0 w ∧
  (Game.won g = true ↔ n = 0).
Proof.
  intros Hinit. pose proof (init_spec fuel rng h w n) as Hspec.
  rewrite Hinit in Hspec. destruct Hspec as (Hwf & Hh & Hw & Hn & Hf).
  do 5 (split; [done|]). split; [split|split].
  - lia.
  - rewrite <- Hn, <- Hh, <- Hw. apply in_bounds_size.
    by destruct Hwf as (_ & _ & Hin & _).
  - unfold Game.won. rewrite Hf. intros Hwon.
    apply bool_decide_eq_true in Hwon. rewrite <- Hn, <- Hwon.
    by rewrite size_empty.
  - intros H0. unfold Game.won. rewrite Hf. apply bool_decide_eq_true.
    symmetry. apply leibniz_equiv, size_empty_iff. lia.
Qed.

(** X19 on the 2x2 game with two mines. *)
Lemma minesweeper_init_spec_witness :
  Game.height small_game = 2 ∧ Game.width small_game = 2 ∧
  Z.of_nat (size (Game.mines small_game)) = 2 ∧
  Game.mines_found small_game = ∅ ∧
  Game.well_formed small_game ∧
  0 ≤ 2 ≤ Z.max 0 2 * Z.max 0 2 ∧
  (Game.won small_game = true ↔ 2 = 0).
Proof.
  apply (minesweeper_init_spec 3 small_rng 2 2 2 small_game).
  vm_compute. reflexivity.
Defined.

(** X20: how building a game can fail. Indexing the board never raises.
    With no mine asked for the game is built at once, whatever the size.
    With mines asked for and no row or no column [random.randrange]
    raises. With a negative number of mines, or more than there are
    cells, the placing loop never ends. *)
Theorem minesweeper_init_failures (fuel : nat) (rng : nat → Z) (h w n : Z) :
  Game.init fuel rng h w n ≠ Game.Fail Game.IndexError ∧
  (n = 0 →
   Game.init fuel rng h w n = Game.Done (Game.Make h w ∅ (Game.blank_board h w) ∅)) ∧
  (n ≠ 0 → h ≤ 0 ∨ w ≤ 0 →
   Game.init (S fuel) rng h w n = Game.Fail Game.RangeError) ∧
  (n < 0 ∨ Z.max 0 h * Z.max 0 w < n → 0 < h → 0 < w →
   Game.init fuel rng h w n = Game.Unfinished).
Proof.
  pose proof (init_spec fuel rng h w n) as Hspec.
  split; [|split; [|split]].
  - intros Hfail. rewrite Hfail in Hspec. by destruct Hspec.
  - intros ->. unfold Game.init.
    assert (Z.of_nat (size (∅ : gset Cell)) = 0) as H0
      by (by rewrite size_empty).
    destruct fuel; cbn [Game.place Game.mines Game.set_board];
      by rewrite decide_False by (intros H; by apply H).
  - intros Hn Hdim. unfold Game.init.
    assert (Z.of_nat (size (∅ : gset Cell)) ≠ n) as H0
      by (rewrite size_empty; lia).
    cbn [Game.place Game.mines Game.set_board].
    rewrite decide_True by done.
    unfold Game.draw, MinesweeperAI.randrange.
    destruct (decide (h ≤ 0)); simpl; [done|].
    destruct (decide (w ≤ 0)); simpl; [done|]. lia.
  - intros Hn Hh Hw.
    destruct (Game.init fuel rng h w n) as [g|e|] eqn:E; [| |done].
    + destruct Hspec as (Hwf & Hgh & Hgw & Hsize & _).
      destruct Hwf as (_ & _ & Hin & _).
      pose proof (in_bounds_size _ _ _ Hin) as Hle.
      rewrite Hgh, Hgw in Hle. lia.
    + destruct Hspec as [_ Hdim]. lia.
Qed.

(** X20 on requests for -1 mines and for 5 mines on a 2x2 board. *)
Lemma minesweeper_init_failures_witness :
  Game.init 7 (fun k => Z.of_nat k) 2 2 (-1) = Game.Unfinished ∧
  Game.init 7 (fun k => Z.of_nat k) 2 2 5 = Game.Unfinished.
Proof.
  split.
  - apply (minesweeper_init_failures 7 (fun k => Z.of_nat k) 2 2 (-1));
      [left|..]; lia.
  - apply (minesweeper_init_failures 7 (fun k => Z.of_nat k) 2 2 5);
      [right|..]; lia.
Defined.

(** X21: on a well-formed game [nearby_mines] never raises, and the count
    it returns is the number of cells of [self.mines] around the cell, a
    number from 0 to 8: the board of booleans and the set of mines tell
    the same. *)
Theorem nearby_mines_reads_mines (cell : Cell) (g : Game.t) :
  Game.well_formed g →
  ∃ k, Game.nearby_mines cell g = Game.Done k ∧
       k = Minesweeper.nearby_mines cell (Game.to_board g) ∧
       k = Z.of_nat (size (filter (fun c => adjacent cell c) (Game.mines g))) ∧
       0 ≤ k ≤ 8.
Proof.
  intros Hwf. exists (Minesweeper.nearby_mines cell (Game.to_board g)).
  split; [by apply nearby_mines_refines|]. split; [done|].
  split; [|apply nearby_mines_le_8].
  rewrite nearby_mines_filter.
  rewrite <- (size_list_to_set (C := gset Cell))
    by apply NoDup_filter, window_NoDup.
  do 2 f_equal. apply leibniz_equiv. intros c.
  rewrite elem_of_list_to_set, list_elem_of_filter, elem_of_filter,
    elem_of_window.
  unfold counted, adjacent. simpl.
  destruct Hwf as (_ & _ & Hin & _). specialize (Hin c). tauto.
Qed.

(** X21 on the 2x2 game with mines at [(0,1)] and [(1,0)]. *)
Lemma nearby_mines_reads_mines_witness :
  ∃ k, Game.nearby_mines (0, 0) small_game = Game.Done k ∧
       k = Minesweeper.nearby_mines (0, 0) (Game.to_board small_game) ∧
       k = Z.of_nat (size (filter (fun c => adjacent (0, 0) c)
                             (Game.mines small_game))) ∧
       0 ≤ k ≤ 8.
Proof.
  apply (nearby_mines_reads_mines (0, 0) small_game).
  apply small_game_well_formed.
Defined.

(** X22: [is_mine] on a well-formed game. For a cell on the board it
    returns whether the cell is in [self.mines]. A row index at or beyond
    the height, or below minus the height, raises [IndexError]. A negative
    row index down to minus the height reads the row counted from the end
    of the board, as Python lists do; nothing in the method rejects it. *)
Theorem is_mine_spec (cell : Cell) (g : Game.t) :
  Game.well_formed g →
  (in_bounds (Game.height g) (Game.width g) cell →
   Game.is_mine cell g = Game.Done (bool_decide (cell ∈ Game.mines g))) ∧
  (Z.max 0 (Game.height g) ≤ cell.1 ∨ cell.1 < - Z.max 0 (Game.height g) →
   Game.is_mine cell g = Game.Fail Game.IndexError) ∧
  (- Game.height g ≤ cell.1 < 0 →
   Game.is_mine cell g = Game.is_mine (cell.1 + Game.height g, cell.2) g).
Proof.
  intros Hwf. split; [by apply is_mine_in_bounds|].
  destruct Hwf as (Hlen & _). split.
  - intros Hrow. unfold Game.is_mine, Game.getitem, Game.position.
    rewrite Hlen.
    destruct (decide (cell.1 < 0)); rewrite decide_False by lia; done.
  - intros Hrow. unfold Game.is_mine, Game.getitem, Game.position. simpl.
    rewrite Hlen.
    rewrite (decide_True (P := cell.1 < 0)) by lia.
    rewrite (decide_False (P := cell.1 + Game.height g < 0)) by lia.
    replace (cell.1 + Z.of_nat (Z.to_nat (Game.height g)))
      with (cell.1 + Game.height g) by lia.
    done.
Qed.

(** X22 on the 2x2 game: the cell [(0,1)] is a mine. *)
Lemma is_mine_spec_witness :
  (in_bounds (Game.height small_game) (Game.width small_game) (0, 1) →
   Game.is_mine (0, 1) small_game
   = Game.Done (bool_decide (((0, 1) : Cell) ∈ Game.mines small_game))) ∧
  (Z.max 0 (Game.height small_game) ≤ 0
   ∨ 0 < - Z.max 0 (Game.height small_game) →
   Game.is_mine (0, 1) small_game = Game.Fail Game.IndexError) ∧
  (- Game.height small_game ≤ 0 < 0 →
   Game.is_mine (0, 1) small_game
   = Game.is_mine (0 + Game.height small_game, 1) small_game).
Proof.
  apply (is_mine_spec (0, 1) small_game). apply small_game_well_formed.
Defined.

(** X23: an instance fed from a game is never misled. When every call is
    [add_knowledge(cell, count)] for a cell on which [is_mine] of a
    well-formed game returned [False], with the count its [nearby_mines]
    returned, every call returns, every cell of [self.mines] is a mine of
    the game and no cell of [self.safes] is. *)
Theorem game_fed_play_sound (g : Game.t) (ops : list call) :
  Game.well_formed g →
  Forall (observed g) ops →
  ∃ self,
    run ops (init (Game.height g) (Game.width g)) = Ok self ∧
    mines self ⊆ Game.mines g ∧ safes self ## Game.mines g.
Proof.
  intros Hwf Hops.
  assert (Forall (truthful (Game.to_board g)) ops) as Htrue.
  { eapply Forall_impl; [exact Hops|].
    intros [cell count|cell|cell]; simpl; [|done..].
    intros [Hmine Hcount]. split; [by apply is_mine_false|].
    rewrite (nearby_mines_refines cell g Hwf) in Hcount. by injection Hcount. }
  destruct (consistent_run (Game.to_board g) ops _ Htrue
              (consistent_init (Game.to_board g)))
    as (self & Hrun & _ & _ & Hm & Hs & _).
  exists self. by repeat split.
Qed.

(** X23 on the 2x2 game, the two cells without a mine observed. *)
Lemma game_fed_play_sound_witness :
  ∃ self,
    run [AddKnowledge (0, 0) 2; AddKnowledge (1, 1) 2]
        (init (Game.height small_game) (Game.width small_game)) = Ok self ∧
    mines self ⊆ Game.mines small_game ∧ safes self ## Game.mines small_game.
Proof.
  apply (game_fed_play_sound small_game
           [AddKnowledge (0, 0) 2; AddKnowledge (1, 1) 2]).
  - apply small_game_well_formed.
  - repeat constructor; vm_compute; reflexivity.
Defined.
